(** * metadata-utils: reading and writing {creator, license, rights} tags

    A shallow embedding of [src/meta.ts] (functions [getTags] and
    [writeImageTags]) together with the parts of the JavaScript run time
    that the two functions rely on: [path.basename], plain objects used
    as maps ([linkedFiles], [tagToWrite]), [Object.entries],
    [Promise.all], template literals and the console.

    The external metadata tool ([exiftool.readRaw], [exiftool.write]) is
    a parameter of the development: a call returns a promise, which
    settles at some instant, rejected or fulfilled.

    Values are taken at the types the interfaces of [meta.ts] declare
    ([string | undefined]); [newTags], which the source types [any], is an
    object with at most the three keys [writeImageTags] looks at. Paths
    are POSIX paths. *)

From Stdlib Require Import Ascii String List NArith Lia.
From stdpp Require Import base option list strings gmap sorting.

Local Open Scope string_scope.

(** ** Values of type [string | undefined] *)

(** [None] is [undefined]. These are the values that the interfaces
    [linkedFileType], [xmpTagType] and the parameter [newTags] declare for
    creator, license and rights. At run time the payload of the tool is
    untyped ([any]): a tag whose text looks like a number is reported as a
    number, and such values are outside this type. *)
Definition jsval : Type := option string.

(** A template literal [`${v}`]: a string is spliced as it is, [undefined]
    as the nine letters of its name. *)
Definition template (v : jsval) : string :=
  match v with
  | Some s => s
  | None => "undefined"
  end.

(** [a != b] at type [string | undefined]: two strings are loosely equal
    when they are the same string, [undefined] is loosely equal to
    [undefined] and to no string (not even the empty one). No coercion
    takes place between two values of this type; [!=] coerces only when
    one side is a number, a boolean or an object. *)
Definition loose_neq (a b : jsval) : bool := negb (bool_decide (a = b)).

(** ** [path.basename] (POSIX flavour)

    Node scans the path from its last character: trailing separators are
    skipped, then characters are collected up to the next separator. A
    path made of separators only (or the empty path) has base name [""]. *)

Definition is_slash (c : ascii) : bool := bool_decide (c = "/"%char).

Fixpoint skip_slashes (cs : list ascii) : list ascii :=
  match cs with
  | c :: cs' => if is_slash c then skip_slashes cs' else cs
  | [] => []
  end.

Fixpoint until_slash (cs : list ascii) : list ascii :=
  match cs with
  | c :: cs' => if is_slash c then [] else c :: until_slash cs'
  | [] => []
  end.

Definition basename (p : string) : string :=
  string_of_list_ascii
    (rev (until_slash (skip_slashes (rev (list_ascii_of_string p))))).

(** ** Plain objects used as maps

    An object is the list of its own enumerable string-keyed properties in
    creation order. *)

Abbreviation JsObject V := (list (string * V)).

Definition obj_empty {V} : JsObject V := [].

Definition own_keys {V} (o : JsObject V) : list string := o.*1.

Fixpoint obj_get {V} (o : JsObject V) (k : string) : option V :=
  match o with
  | [] => None
  | (k', v) :: o' => if decide (k' = k) then Some v else obj_get o' k
  end.

(** Defining or overwriting an own data property: an existing key keeps its
    place and takes the new value, a new key goes last. *)
Fixpoint define_own {V} (k : string) (v : V) (o : JsObject V) : JsObject V :=
  match o with
  | [] => [(k, v)]
  | (k', v') :: o' =>
      if decide (k' = k) then (k, v) :: o' else (k', v') :: define_own k v o'
  end.

(** [o[k] = v] on an object created by [{}], for [v] an object. The key
    ["__proto__"] is not a data property: it is an accessor inherited from
    [Object.prototype] whose setter replaces the prototype of [o], and no
    own property is created. Every other key, inherited or not, ends up as
    an own data property of [o]. *)
Definition obj_set {V} (k : string) (v : V) (o : JsObject V) : JsObject V :=
  if decide (k = "__proto__") then o else define_own k v o.

(** A key is an array index when it is the canonical decimal form of an
    integer between 0 and 2^32 - 2. *)
Definition digit (c : ascii) : option N :=
  let n := N_of_ascii c in
  if ((48 <=? n) && (n <=? 57))%N then Some (n - 48)%N else None.

Fixpoint decimal (acc : N) (cs : list ascii) : option N :=
  match cs with
  | [] => Some acc
  | c :: cs' =>
      match digit c with
      | Some d => decimal (10 * acc + d)%N cs'
      | None => None
      end
  end.

Definition array_index (k : string) : option N :=
  match list_ascii_of_string k with
  | [] => None
  | c :: cs =>
      if bool_decide (c = "0"%char) && negb (bool_decide (cs = []))
      then None
      else match decimal 0 (c :: cs) with
           | Some n => if (n <? 4294967295)%N then Some n else None
           | None => None
           end
  end.

Definition index_le {V} (a b : N * (string * V)) : Prop := (a.1 ≤ b.1)%N.

Global Instance index_le_dec {V} (a b : N * (string * V)) :
  Decision (index_le a b) := N.le_dec a.1 b.1.

Definition indexed {V} (e : string * V) : option (N * (string * V)) :=
  match array_index e.1 with
  | Some n => Some (n, e)
  | None => None
  end.

Definition named {V} (e : string * V) : bool :=
  match array_index e.1 with
  | Some _ => false
  | None => true
  end.

(** [Object.entries(o)]: own properties whose key is an array index come
    first, in ascending numeric order; all other keys follow in creation
    order. *)
Definition Object_entries {V} (o : JsObject V) : list (string * V) :=
  (merge_sort index_le (omap indexed o)).*2 ++ filter (λ e, named e = true) o.

(** ** Data model of [meta.ts] *)

Inductive fileType : Type := audio | image.

(** The field [fileType] is [fileType'] here, the name being taken by the
    type. The optional [tags] is never set by [getTags]. *)
Record linkedFileType : Type := {
  fileName : string;
  fileType' : fileType;
  sourceFile : jsval;
  creator : jsval;
  license : jsval;
  rights : jsval
}.

(** [xmpTagType]: an object with at most the keys ["XMP:Creator"],
    ["XMP:License"], ["XMP:Rights"]. A key may be present with the value
    [undefined]. *)
Abbreviation xmpTagType := (gmap string jsval).

(** The tag payload of one file after the JSON round trip. The external
    tool reports [SourceFile] for every file it reads ([getTags] hands it
    to [path.basename], which takes a string only); the three tracked tags
    are present or not. *)
Record Tags : Type := {
  SourceFile : string;
  Creator : jsval;
  License : jsval;
  Rights : jsval
}.

(** [newTags]: for each of the three keys, [None] when the object has no
    own property of that name, [Some v] when it has one with value [v]
    ([v] itself may be [undefined]). *)
Record newTagsType : Type := {
  own_creator : option jsval;
  own_license : option jsval;
  own_rights : option jsval
}.

(** ** Effects: promises, the console, calls to the external tool *)

(** A failure carries a [message]. *)
Record error : Type := { message : string }.

(** A promise of the external tool: when it settles (an abstract instant;
    of two promises with the same instant the one created first settles
    first) and how: rejected with an error or fulfilled with a value. *)
Record promise (A : Type) : Type := {
  settles_at : nat;
  outcome : error + A
}.
Arguments settles_at {A} _.
Arguments outcome {A} _.

(** What a run does, in the order it does it. *)
Inductive event : Type :=
  | readRaw_called (file : string) (args : list string)
  | read_settled (index : nat)
  | write_called (file : jsval) (tags : xmpTagType) (args : list string)
  | write_settled (index : nat)
  | console_log (line : string)
  | console_error (line : string).

(** An [async] computation run to its end: the events it caused and
    either the error it was rejected with or the value it returned. *)
Record M (A : Type) : Type := {
  trace : list event;
  returned : error + A
}.
Arguments trace {A} _.
Arguments returned {A} _.

Global Instance M_ret : MRet M := λ A a, {| trace := []; returned := inr a |}.

Global Instance M_bind : MBind M := λ A B k m,
  match returned m with
  | inl e => {| trace := trace m; returned := inl e |}
  | inr a => {| trace := trace m ++ trace (k a); returned := returned (k a) |}
  end.

(** An effect that produces [a] while causing the event [ev]. *)
Definition emit {A} (ev : event) (a : A) : M A :=
  {| trace := [ev]; returned := inr a |}.

(** [for (const x of xs) { ... }] threading the variables the body
    mutates. *)
Fixpoint for_of {A S} (xs : list A) (body : S → A → M S) (s : S) : M S :=
  match xs with
  | [] => mret s
  | x :: xs' => s' ← body s x; for_of xs' body s'
  end.

(** [m.catch(handler)]: a rejection is handed to [handler]. *)
Definition catch {A} (m : M A) (handler : error → M ()) : M () :=
  match returned m with
  | inl e => {| trace := trace m ++ trace (handler e);
                returned := returned (handler e) |}
  | inr _ => {| trace := trace m; returned := inr () |}
  end.

(** *** [Promise.all] *)

Definition settles_before {A} (a b : nat * promise A) : Prop :=
  (settles_at a.2 < settles_at b.2)%nat ∨
  (settles_at a.2 = settles_at b.2 ∧ (a.1 ≤ b.1)%nat).

Global Instance settles_before_dec {A} (a b : nat * promise A) :
  Decision (settles_before a b).
Proof. unfold settles_before. apply _. Defined.

(** The promises of a batch, each with its position, in the order in
    which they settle. *)
Definition settle_order {A} (promises : list (promise A))
  : list (nat * promise A) :=
  merge_sort settles_before (imap pair promises).

(** The settlements seen while waiting: all of them when every promise is
    fulfilled, those up to the first rejection otherwise. *)
Fixpoint observe {A} (settled : nat → event) (q : list (nat * promise A))
  : list event * option error :=
  match q with
  | [] => ([], None)
  | (i, p) :: q' =>
      match outcome p with
      | inl e => ([settled i], Some e)
      | inr _ => let r := observe settled q' in (settled i :: r.1, r.2)
      end
  end.

Definition fulfilled {A} (p : promise A) : option A :=
  match outcome p with
  | inr a => Some a
  | inl _ => None
  end.

(** [await Promise.all(promises)]: rejected with the reason of the first
    promise that is rejected, otherwise fulfilled with the values in the
    order of [promises]. *)
Definition await_Promise_all {A} (settled : nat → event)
    (promises : list (promise A)) : M (list A) :=
  let r := observe settled (settle_order promises) in
  match r.2 with
  | Some e => {| trace := r.1; returned := inl e |}
  | None => {| trace := r.1; returned := inr (omap fulfilled promises) |}
  end.

(** [chalk.red] at [chalk.level = 1], as chalk 4 and 5 compute it: the
    string between the code that opens red and the code that closes it.
    Two things are done to the
    string first. A closing code already in it is followed by a new
    opening code, so that what comes after stays red. The colour is closed
    before every line feed (and the carriage return that goes with it) and
    opened again after it. The empty string is left as it is. *)
Definition esc : string := String (ascii_of_nat 27) "".
Definition red_open : string := esc +:+ "[31m".
Definition red_close : string := esc +:+ "[39m".

Definition line_feed : ascii := ascii_of_nat 10.
Definition carriage_return : ascii := ascii_of_nat 13.

(** Every closing code, found from the left, is followed by an opening
    code; [inside] counts the characters of a closing code just found that
    are still to be passed over. *)
Fixpoint reopen_after_close (inside : nat) (s : string) : string :=
  match s with
  | EmptyString => EmptyString
  | String c s' =>
      match inside with
      | S inside' => reopen_after_close inside' s'
      | O =>
          if String.prefix red_close s
          then red_close +:+ red_open
               +:+ reopen_after_close (String.length red_close - 1) s'
          else String c (reopen_after_close 0 s')
      end
  end.

Fixpoint encase_line_feeds (s : string) : string :=
  match s with
  | EmptyString => EmptyString
  | String c s' =>
      if bool_decide (c = line_feed) then
        red_close +:+ String line_feed (red_open +:+ encase_line_feeds s')
      else if bool_decide (c = carriage_return) then
        match s' with
        | String c' s'' =>
            if bool_decide (c' = line_feed) then
              red_close
              +:+ String carriage_return
                    (String line_feed (red_open +:+ encase_line_feeds s''))
            else String c (encase_line_feeds s')
        | EmptyString => String c EmptyString
        end
      else String c (encase_line_feeds s')
  end.

Definition chalk_red (s : string) : string :=
  if bool_decide (s = "") then ""
  else red_open +:+ encase_line_feeds (reopen_after_close 0 s) +:+ red_close.

(** ** The two functions of [meta.ts] *)

Section meta.

(** The external tool: the promise each call returns. *)
Variable exiftool_readRaw : string → list string → promise Tags.
Variable exiftool_write : jsval → xmpTagType → list string → promise ().

(** [parseJSON(JSON.stringify(rawTags))]: a payload of plain strings is
    its own round trip. *)
Definition parseJSON_stringify (rawTags : Tags) : Tags := rawTags.

Definition add_linkedFile (linkedFiles : JsObject linkedFileType)
    (rawTags : Tags) : JsObject linkedFileType :=
  let tags := parseJSON_stringify rawTags in
  let id := basename (SourceFile tags) in
  obj_set id
    {| fileName := id;
       fileType' := image;
       sourceFile := Some (SourceFile tags);
       creator := Creator tags;
       license := License tags;
       rights := Rights tags |}
    linkedFiles.

Definition getTags (files : list string) : M (JsObject linkedFileType) :=
  promises ← mapM (λ file,
    emit (readRaw_called file ["all"; "-xmp:all"])
         (exiftool_readRaw file ["all"; "-xmp:all"])) files;
  allTags ← await_Promise_all read_settled promises;
  mret (foldl add_linkedFile obj_empty allTags).

(** One of the three blocks "Update ... info" of the loop body: [own] is
    the own property of [newTags] for the field, [current] the value of
    the field in [currentTags]. *)
Definition update (currentTags : linkedFileType) (field tagName : string)
    (current : jsval) (own : option jsval)
    (modified : list string) (tagToWrite : xmpTagType)
  : M (list string * xmpTagType) :=
  match own with
  | Some desired =>
      modified ←
        (if loose_neq current desired then
           let warning :=
             "WARNING: Overwriting " +:+ basename (fileName currentTags)
             +:+ " " +:+ "existing " +:+ field +:+ ": " +:+ template current
             +:+ " with " +:+ template desired in
           emit (console_log (chalk_red warning)) (modified ++ [warning])%list
         else mret modified);
      mret (modified, <[tagName := desired]> tagToWrite)
  | None => mret (modified, tagToWrite)
  end.

Definition each_file (newTags : newTagsType)
    (vars : list (promise ()) * list string)
    (entry : string * linkedFileType)
  : M (list (promise ()) * list string) :=
  let '(promises, modified) := vars in
  let '(id, currentTags) := entry in
  let tagToWrite : xmpTagType := ∅ in
  '(modified, tagToWrite) ←
    update currentTags "creator" "XMP:Creator"
      (creator currentTags) (own_creator newTags) modified tagToWrite;
  '(modified, tagToWrite) ←
    update currentTags "license" "XMP:License"
      (license currentTags) (own_license newTags) modified tagToWrite;
  '(modified, tagToWrite) ←
    update currentTags "rights" "XMP:Rights"
      (rights currentTags) (own_rights newTags) modified tagToWrite;
  if bool_decide (size tagToWrite ≠ 0) then
    p ← emit (write_called (sourceFile currentTags) tagToWrite
                ["-overwrite_original"])
             (exiftool_write (sourceFile currentTags) tagToWrite
                ["-overwrite_original"]);
    mret ((promises ++ [p])%list, modified)
  else mret (promises, modified).

Definition writeImageTags (files : list string) (newTags : newTagsType)
  : M (list string) :=
  fileTags ← getTags files;
  '(promises, modified) ←
    for_of (Object_entries fileTags) (each_file newTags) ([], []);
  _ ← catch (await_Promise_all write_settled promises)
            (λ error, emit (console_error (message error)) ());
  mret modified.

End meta.

(** ** Reading a run: the loop body field by field, the phases *)

(** The three tracked fields, in the order of the three blocks of the
    loop body. *)
Inductive tracked : Type := on_creator | on_license | on_rights.

Global Instance tracked_eq_dec : EqDecision tracked.
Proof. solve_decision. Defined.

Definition tracked_fields : list tracked := [on_creator; on_license; on_rights].

Definition key (f : tracked) : string :=
  match f with
  | on_creator => "creator"
  | on_license => "license"
  | on_rights => "rights"
  end.

Definition tagName (f : tracked) : string :=
  match f with
  | on_creator => "XMP:Creator"
  | on_license => "XMP:License"
  | on_rights => "XMP:Rights"
  end.

Definition current (f : tracked) (currentTags : linkedFileType) : jsval :=
  match f with
  | on_creator => creator currentTags
  | on_license => license currentTags
  | on_rights => rights currentTags
  end.

(** [desired f newTags = None]: [newTags] has no own property [key f]. *)
Definition desired (f : tracked) (newTags : newTagsType) : option jsval :=
  match f with
  | on_creator => own_creator newTags
  | on_license => own_license newTags
  | on_rights => own_rights newTags
  end.

Definition overwriting (baseName field : string) (currentValue desiredValue : jsval)
  : string :=
  "WARNING: Overwriting " +:+ baseName +:+ " existing " +:+ field +:+ ": "
  +:+ template currentValue +:+ " with " +:+ template desiredValue.

(** The warnings one block adds to [modified]. *)
Definition block_warnings (baseName field : string) (currentValue : jsval)
    (own : option jsval) : list string :=
  match own with
  | Some desiredValue =>
      if loose_neq currentValue desiredValue
      then [overwriting baseName field currentValue desiredValue]
      else []
  | None => []
  end.

Definition stage (tag : string) (own : option jsval) (tagToWrite : xmpTagType)
  : xmpTagType :=
  match own with
  | Some desiredValue => <[tag := desiredValue]> tagToWrite
  | None => tagToWrite
  end.

(** The warnings of one file and the payload staged for it. *)
Definition file_warnings (newTags : newTagsType) (currentTags : linkedFileType)
  : list string :=
  (block_warnings (basename (fileName currentTags)) "creator"
     (creator currentTags) (own_creator newTags)
   ++ block_warnings (basename (fileName currentTags)) "license"
        (license currentTags) (own_license newTags)
   ++ block_warnings (basename (fileName currentTags)) "rights"
        (rights currentTags) (own_rights newTags))%list.

(** The warnings of an entry, with its key for base name. *)
Definition entry_warnings (newTags : newTagsType)
    (entry : string * linkedFileType) : list string :=
  tracked_fields ≫= λ f,
    block_warnings entry.1 (key f) (current f entry.2) (desired f newTags).

Definition staged (newTags : newTagsType) : xmpTagType :=
  stage "XMP:Rights" (own_rights newTags)
    (stage "XMP:License" (own_license newTags)
       (stage "XMP:Creator" (own_creator newTags) ∅)).

Definition is_write (ev : event) : bool :=
  match ev with
  | write_called _ _ _ => true
  | _ => false
  end.

Definition is_read (ev : event) : bool :=
  match ev with
  | readRaw_called _ _ | read_settled _ => true
  | _ => false
  end.

(** The write requests of a run, in the order they were issued. *)
Definition write_requests (t : list event) : list event :=
  filter (λ ev, is_write ev = true) t.

(** The promises [getTags] waits for, in the order of [files]. *)
Definition read_promises (readRaw : string → list string → promise Tags)
    (files : list string) : list (promise Tags) :=
  (λ file, readRaw file ["all"; "-xmp:all"]) <$> files.

Definition read_calls (files : list string) : list event :=
  (λ file, readRaw_called file ["all"; "-xmp:all"]) <$> files.

(** The write request of one file, if its payload has a key. *)
Definition file_writes (newTags : newTagsType) (currentTags : linkedFileType)
  : list event :=
  if bool_decide (size (staged newTags) ≠ 0)
  then [write_called (sourceFile currentTags) (staged newTags)
          ["-overwrite_original"]]
  else [].

Definition file_promises (write : jsval → xmpTagType → list string → promise ())
    (newTags : newTagsType) (currentTags : linkedFileType)
  : list (promise ()) :=
  if bool_decide (size (staged newTags) ≠ 0)
  then [write (sourceFile currentTags) (staged newTags) ["-overwrite_original"]]
  else [].

Definition file_events (newTags : newTagsType) (currentTags : linkedFileType)
  : list event :=
  (((console_log ∘ chalk_red) <$> file_warnings newTags currentTags)
   ++ file_writes newTags currentTags)%list.

(** The last statement but one: waiting for the writes, and logging the
    message of a rejection. *)
Definition write_phase (promises : list (promise ())) : list event :=
  (trace (await_Promise_all write_settled promises)
   ++ match returned (await_Promise_all write_settled promises) with
      | inl e => [console_error (message e)]
      | inr _ => []
      end)%list.

Definition loop_events (newTags : newTagsType) (fileTags : JsObject linkedFileType)
  : list event :=
  Object_entries fileTags ≫= λ entry, file_events newTags entry.2.

Definition loop_promises (write : jsval → xmpTagType → list string → promise ())
    (newTags : newTagsType) (fileTags : JsObject linkedFileType)
  : list (promise ()) :=
  Object_entries fileTags ≫= λ entry, file_promises write newTags entry.2.

(** The entry [getTags] makes of a payload. *)
Definition as_linkedFile (tags : Tags) : linkedFileType :=
  {| fileName := basename (SourceFile tags);
     fileType' := image;
     sourceFile := Some (SourceFile tags);
     creator := Creator tags;
     license := License tags;
     rights := Rights tags |}.

(** ** The same run with other payloads *)

(** The payload without the tag of field [f]. *)
Definition forget (f : tracked) (tags : Tags) : Tags :=
  {| SourceFile := SourceFile tags;
     Creator := match f with on_creator => None | _ => Creator tags end;
     License := match f with on_license => None | _ => License tags end;
     Rights := match f with on_rights => None | _ => Rights tags end |}.

Definition forget_linked (f : tracked) (currentTags : linkedFileType)
  : linkedFileType :=
  {| fileName := fileName currentTags;
     fileType' := fileType' currentTags;
     sourceFile := sourceFile currentTags;
     creator := match f with on_creator => None | _ => creator currentTags end;
     license := match f with on_license => None | _ => license currentTags end;
     rights := match f with on_rights => None | _ => rights currentTags end |}.

Definition promise_map {A B} (h : A → B) (p : promise A) : promise B :=
  {| settles_at := settles_at p;
     outcome := match outcome p with inl e => inl e | inr a => inr (h a) end |}.

(** The same tool, as seen without the tag of field [f]. *)
Definition forgetting (f : tracked)
    (readRaw : string → list string → promise Tags)
  : string → list string → promise Tags :=
  λ file args, promise_map (forget f) (readRaw file args).

Definition on_values {V W} (g : V → W) (o : JsObject V) : JsObject W :=
  prod_map id g <$> o.

(** ** Objects for [newTags] *)

Definition no_keys : newTagsType :=
  {| own_creator := None; own_license := None; own_rights := None |}.

(** The object whose only own key is [key f], with value [v]. *)
Definition only (f : tracked) (v : jsval) : newTagsType :=
  {| own_creator := match f with on_creator => Some v | _ => None end;
     own_license := match f with on_license => Some v | _ => None end;
     own_rights := match f with on_rights => Some v | _ => None end |}.

(** ** Two readings that the code does not bear out *)

(** A value that is neither [undefined] nor the empty string. *)
Definition non_empty (v : jsval) : Prop := ∃ s, v = Some s ∧ s ≠ "".

(** "A write is attempted only if at least one targeted field has a
    non-empty tag value to write." *)
Definition write_only_with_a_value
    (readRaw : string → list string → promise Tags)
    (write : jsval → xmpTagType → list string → promise ())
    (files : list string) (newTags : newTagsType) : Prop :=
  ∀ src tags args,
    write_called src tags args ∈ trace (writeImageTags readRaw write files newTags) →
    ∃ field v, desired field newTags = Some v ∧ non_empty v.

(** "Files appear in insertion order": the warnings are those of the
    entries in the order in which their keys were created. *)
Definition warnings_in_insertion_order
    (readRaw : string → list string → promise Tags)
    (write : jsval → xmpTagType → list string → promise ())
    (files : list string) (newTags : newTagsType) : Prop :=
  ∀ fileTags,
    returned (getTags readRaw files) = inr fileTags →
    returned (writeImageTags readRaw write files newTags)
    = inr (fileTags ≫= entry_warnings newTags).

(** ** Sample batches *)

Definition sample_readRaw (file : string) (args : list string) : promise Tags :=
  if decide (file = "pics/a.jpg") then
    {| settles_at := 2;
       outcome := inr {| SourceFile := "/home/u/pics/a.jpg";
                         Creator := Some "Alice";
                         License := None;
                         Rights := Some "All rights reserved" |} |}
  else if decide (file = "pics/b.jpg") then
    {| settles_at := 1;
       outcome := inr {| SourceFile := "/home/u/pics/b.jpg";
                         Creator := Some "Bob";
                         License := Some "CC BY";
                         Rights := None |} |}
  else
    {| settles_at := 0;
       outcome := inl {| message := "File not found - " +:+ file |} |}.

(** The sample tool with other creators and rights. *)
Definition other_readRaw (file : string) (args : list string) : promise Tags :=
  if decide (file = "pics/a.jpg") then
    {| settles_at := 2;
       outcome := inr {| SourceFile := "/home/u/pics/a.jpg";
                         Creator := None;
                         License := None;
                         Rights := Some "Public domain" |} |}
  else if decide (file = "pics/b.jpg") then
    {| settles_at := 1;
       outcome := inr {| SourceFile := "/home/u/pics/b.jpg";
                         Creator := Some "Robert";
                         License := Some "CC BY";
                         Rights := Some "Some rights reserved" |} |}
  else
    {| settles_at := 0;
       outcome := inl {| message := "File not found - " +:+ file |} |}.

(** A tool that reports each path as it was given. *)
Definition as_given (file : string) (args : list string) : promise Tags :=
  {| settles_at := 0;
     outcome := inr {| SourceFile := file;
                       Creator := Some ("creator of " +:+ file);
                       License := None;
                       Rights := None |} |}.

Definition sample_write (file : jsval) (tags : xmpTagType) (args : list string)
  : promise () :=
  {| settles_at := 0;
     outcome := if decide (file = Some "/home/u/pics/b.jpg")
                then inl {| message := "Error: file is read-only" |}
                else inr () |}.

Definition sample_fileTags : JsObject linkedFileType :=
  [("a.jpg", {| fileName := "a.jpg"; fileType' := image;
                sourceFile := Some "/home/u/pics/a.jpg";
                creator := Some "Alice"; license := None;
                rights := Some "All rights reserved" |});
   ("b.jpg", {| fileName := "b.jpg"; fileType' := image;
                sourceFile := Some "/home/u/pics/b.jpg";
                creator := Some "Bob"; license := Some "CC BY";
                rights := None |})].

Definition sample_a : JsObject linkedFileType :=
  [("a.jpg", {| fileName := "a.jpg"; fileType' := image;
                sourceFile := Some "/home/u/pics/a.jpg";
                creator := Some "Alice"; license := None;
                rights := Some "All rights reserved" |})].

Definition sample_b : JsObject linkedFileType :=
  [("b.jpg", {| fileName := "b.jpg"; fileType' := image;
                sourceFile := Some "/home/u/pics/b.jpg";
                creator := Some "Bob"; license := Some "CC BY";
                rights := None |})].

Definition numbered_fileTags : JsObject linkedFileType :=
  [("b", {| fileName := "b"; fileType' := image; sourceFile := Some "pics/b";
            creator := Some "creator of pics/b"; license := None;
            rights := None |});
   ("2", {| fileName := "2"; fileType' := image; sourceFile := Some "pics/2";
            creator := Some "creator of pics/2"; license := None;
            rights := None |});
   ("a", {| fileName := "a"; fileType' := image; sourceFile := Some "pics/a";
            creator := Some "creator of pics/a"; license := None;
            rights := None |});
   ("1", {| fileName := "1"; fileType' := image; sourceFile := Some "pics/1";
            creator := Some "creator of pics/1"; license := None;
            rights := None |})].

Definition carol : newTagsType :=
  {| own_creator := Some (Some "Carol"); own_license := None; own_rights := None |}.

Definition same_as_current : newTagsType :=
  {| own_creator := None; own_license := None; own_rights := Some None |}.

Definition empty_values : newTagsType :=
  {| own_creator := Some None; own_license := Some (Some ""); own_rights := None |}.

(** ** More readings of a run *)

(** The lines written with [console.log] and with [console.error]. *)
Definition console_logs (t : list event) : list string :=
  omap (λ ev, match ev with console_log line => Some line | _ => None end) t.

Definition console_errors (t : list event) : list string :=
  omap (λ ev, match ev with console_error line => Some line | _ => None end) t.

(** The keys of [ks] that are not in [seen], each once, in the order in
    which they first occur. *)
Fixpoint fresh_keys (seen ks : list string) : list string :=
  match ks with
  | [] => []
  | k :: ks' =>
      if decide (k ∈ seen) then fresh_keys seen ks'
      else k :: fresh_keys (seen ++ [k])%list ks'
  end.

(** The base names under which [getTags] enters the payloads. *)
Definition entered (allTags : list Tags) : list string :=
  filter (λ id, id ≠ "__proto__") ((λ tags, basename (SourceFile tags)) <$> allTags).

Definition is_rejected {A} (p : promise A) : Prop := ∃ e, outcome p = inl e.

(** A tool on which two reads fail, the second one asked for first. *)
Definition racing_readRaw (file : string) (args : list string) : promise Tags :=
  if decide (file = "pics/slow.jpg") then
    {| settles_at := 5; outcome := inl {| message := "slow.jpg: unreadable" |} |}
  else if decide (file = "pics/fast.jpg") then
    {| settles_at := 1; outcome := inl {| message := "fast.jpg: unreadable" |} |}
  else
    {| settles_at := 3;
       outcome := inr {| SourceFile := file; Creator := None; License := None;
                         Rights := None |} |}.

(** The same tool with other settlement instants. *)
Definition at_instant (instant : string → nat)
    (readRaw : string → list string → promise Tags)
  : string → list string → promise Tags :=
  λ file args,
    {| settles_at := instant file; outcome := outcome (readRaw file args) |}.

(** A tool on which both writes of the sample batch fail, the second
    one first. *)
Definition racing_write (file : jsval) (tags : xmpTagType) (args : list string)
  : promise () :=
  if decide (file = Some "/home/u/pics/a.jpg") then
    {| settles_at := 4; outcome := inl {| message := "a.jpg: disk full" |} |}
  else
    {| settles_at := 2; outcome := inl {| message := "b.jpg: read-only" |} |}.

(** A tool on which every write succeeds. *)
Definition obliging_write (file : jsval) (tags : xmpTagType) (args : list string)
  : promise () :=
  {| settles_at := 9; outcome := inr () |}.


(** A tool on which the write of b.jpg fails early and the write of a.jpg
    succeeds late. *)
Definition failing_first_write (file : jsval) (tags : xmpTagType)
    (args : list string) : promise () :=
  if decide (file = Some "/home/u/pics/b.jpg") then
    {| settles_at := 1; outcome := inl {| message := "b.jpg: read-only" |} |}
  else
    {| settles_at := 5; outcome := inr () |}.

(** Of two keys that are array indices, the first is not the greater. *)
Definition index_before (a b : string) : Prop :=
  match array_index a, array_index b with
  | Some m, Some n => (m ≤ n)%N
  | _, _ => True
  end.

(** ** Examples *)

Example basename_nested : basename "imgs/sub/a.jpg" = "a.jpg".
Proof. reflexivity. Qed.

Example basename_trailing_slashes : basename "imgs/sub///" = "sub".
Proof. reflexivity. Qed.

Example basename_root : basename "/" = "".
Proof. reflexivity. Qed.

Example array_index_canonical :
  array_index "10" = Some 10%N ∧ array_index "0" = Some 0%N
  ∧ array_index "010" = None ∧ array_index "1.jpg" = None
  ∧ array_index "4294967294" = Some 4294967294%N
  ∧ array_index "4294967295" = None.
Proof. by vm_compute. Qed.

Example entries_of_mixed_keys :
  Object_entries (obj_set "b" 6 (obj_set "1" 5 (obj_set "b" 4
    (obj_set "10" 3 (obj_set "2" 2 (obj_set "01" 1 obj_empty))))))
  = [("1", 5); ("2", 2); ("10", 3); ("01", 1); ("b", 6)].
Proof. by vm_compute. Qed.

Example proto_is_no_key :
  obj_set "b" 2 (obj_set "__proto__" 1 (obj_set "a" 0 obj_empty))
  = [("a", 0); ("b", 2)].
Proof. reflexivity. Qed.

Example chalk_red_plain : chalk_red "ab" = esc +:+ "[31mab" +:+ esc +:+ "[39m".
Proof. reflexivity. Qed.

Example chalk_red_line_feed :
  chalk_red ("a" +:+ String line_feed "b")
  = red_open +:+ "a" +:+ red_close
    +:+ String line_feed (red_open +:+ "b" +:+ red_close).
Proof. reflexivity. Qed.

Example chalk_red_carriage_return :
  chalk_red ("a" +:+ String carriage_return (String line_feed "b"))
  = red_open +:+ "a" +:+ red_close
    +:+ String carriage_return
          (String line_feed (red_open +:+ "b" +:+ red_close)).
Proof. reflexivity. Qed.

Example chalk_red_closed_inside :
  chalk_red ("a" +:+ red_close +:+ "b")
  = red_open +:+ "a" +:+ red_close +:+ red_open +:+ "b" +:+ red_close.
Proof. reflexivity. Qed.

Example chalk_red_empty : chalk_red "" = "".
Proof. reflexivity. Qed.

(** The scenario of two files by Alice and Bob, and Carol for creator:
    two warnings. *)
Example carol_for_creator :
  returned (writeImageTags sample_readRaw sample_write
              ["pics/a.jpg"; "pics/b.jpg"] carol)
  = inr ["WARNING: Overwriting a.jpg existing creator: Alice with Carol";
         "WARNING: Overwriting b.jpg existing creator: Bob with Carol"].
Proof. by vm_compute. Qed.

(** ** The monad *)

(** Membership in a trace that computes: find the event. *)
Ltac find_event :=
  apply list_elem_of_In; vm_compute;
  repeat first [left; reflexivity | right].

Lemma bind_returned {A B} (t : list event) (a : A) (k : A → M B) :
  {| trace := t; returned := inr a |} ≫= k
  = {| trace := (t ++ trace (k a))%list; returned := returned (k a) |}.
Proof. reflexivity. Qed.

Lemma mapM_emit {A B} (ev : A → event) (v : A → B) (xs : list A) :
  mapM (λ x, emit (ev x) (v x)) xs
  = {| trace := ev <$> xs; returned := inr (v <$> xs) |}.
Proof.
  induction xs as [|x xs IH]; [reflexivity|].
  cbn [mapM]. rewrite IH. unfold emit.
  rewrite !bind_returned. cbn. by rewrite app_nil_r.
Qed.

(** ** What a run of the two functions is *)

Section runs.

Variable readRaw : string → list string → promise Tags.
Variable write : jsval → xmpTagType → list string → promise ().

Lemma getTags_run files :
  getTags readRaw files
  = {| trace := (read_calls files
                 ++ trace (await_Promise_all read_settled (read_promises readRaw files)))%list;
       returned :=
         match returned (await_Promise_all read_settled (read_promises readRaw files)) with
         | inl e => inl e
         | inr allTags => inr (foldl add_linkedFile obj_empty allTags)
         end |}.
Proof.
  unfold getTags. rewrite mapM_emit, bind_returned.
  fold (read_promises readRaw files). fold (read_calls files).
  destruct (await_Promise_all read_settled (read_promises readRaw files)) as [t [e|allTags]];
    cbn; [reflexivity|]. by rewrite app_nil_r.
Qed.

Lemma update_run currentTags field tag currentValue own modified tagToWrite :
  update currentTags field tag currentValue own modified tagToWrite
  = {| trace := (console_log ∘ chalk_red)
                  <$> block_warnings (basename (fileName currentTags)) field
                        currentValue own;
       returned := inr ((modified
                         ++ block_warnings (basename (fileName currentTags)) field
                              currentValue own)%list,
                        stage tag own tagToWrite) |}.
Proof.
  unfold update, block_warnings, stage.
  destruct own as [desiredValue|]; cbn; [|by rewrite app_nil_r].
  destruct (loose_neq currentValue desiredValue); cbn;
    [reflexivity | by rewrite app_nil_r].
Qed.

Lemma each_file_run newTags promises modified id currentTags :
  each_file write newTags (promises, modified) (id, currentTags)
  = {| trace := file_events newTags currentTags;
       returned := inr ((promises ++ file_promises write newTags currentTags)%list,
                        (modified ++ file_warnings newTags currentTags)%list) |}.
Proof.
  unfold each_file. rewrite update_run, bind_returned.
  rewrite update_run, bind_returned. rewrite update_run, bind_returned.
  fold (staged newTags).
  unfold file_events, file_writes, file_promises, file_warnings.
  rewrite !fmap_app, <- !app_assoc.
  destruct (bool_decide (size (staged newTags) ≠ 0)); cbn;
    by rewrite ?app_nil_r.
Qed.

Lemma for_of_run newTags entries promises modified :
  for_of entries (each_file write newTags) (promises, modified)
  = {| trace := entries ≫= (λ entry, file_events newTags entry.2);
       returned :=
         inr ((promises ++ (entries ≫= λ entry, file_promises write newTags entry.2))%list,
              (modified ++ (entries ≫= λ entry, file_warnings newTags entry.2))%list) |}.
Proof.
  revert promises modified.
  induction entries as [|[id currentTags] entries IH]; intros promises modified.
  - cbn. by rewrite !app_nil_r.
  - cbn [for_of]. rewrite each_file_run, bind_returned, IH. cbn.
    by rewrite <- !app_assoc.
Qed.

Lemma writeImageTags_rejected files newTags e :
  returned (getTags readRaw files) = inl e →
  writeImageTags readRaw write files newTags
  = {| trace := trace (getTags readRaw files); returned := inl e |}.
Proof.
  intros He. unfold writeImageTags.
  destruct (getTags readRaw files) as [t r]. cbn in He. subst r. reflexivity.
Qed.

Lemma writeImageTags_run files newTags fileTags :
  returned (getTags readRaw files) = inr fileTags →
  writeImageTags readRaw write files newTags
  = {| trace := (trace (getTags readRaw files)
                 ++ loop_events newTags fileTags
                 ++ write_phase (loop_promises write newTags fileTags))%list;
       returned :=
         inr (Object_entries fileTags ≫= λ entry, file_warnings newTags entry.2) |}.
Proof.
  intros Hr. unfold writeImageTags.
  destruct (getTags readRaw files) as [t r]. cbn in Hr. subst r.
  rewrite bind_returned, for_of_run, bind_returned. cbn [app trace returned].
  fold (loop_events newTags fileTags). fold (loop_promises write newTags fileTags).
  unfold write_phase, catch.
  destruct (await_Promise_all write_settled (loop_promises write newTags fileTags))
    as [tw [e|v]]; cbn; by rewrite ?app_nil_r.
Qed.

End runs.

(** ** [Promise.all] *)

Section promise_all.

Context {A : Type}.
Implicit Types (q : list (nat * promise A)) (promises : list (promise A)).

Lemma observe_fulfilled settled q :
  (observe settled q).2 = None →
  (observe settled q).1 = settled <$> q.*1
  ∧ Forall (λ ip, is_Some (fulfilled ip.2)) q.
Proof.
  induction q as [|[i p] q IH]; cbn; [by auto|].
  unfold fulfilled at 1. destruct (outcome p) as [e|a] eqn:Hp; cbn; [done|].
  intros Hq. destruct (IH Hq) as [-> Hall]. split; [done|].
  constructor; [|done]. cbn. unfold fulfilled. rewrite Hp. by eexists.
Qed.

Lemma observe_rejected settled q e :
  (observe settled q).2 = Some e →
  ∃ i p, (i, p) ∈ q ∧ outcome p = inl e.
Proof.
  induction q as [|[i p] q IH]; cbn; [done|].
  destruct (outcome p) as [e'|a] eqn:Hp; cbn.
  - intros [= ->]. exists i, p. split; [left | done].
  - intros Hq. destruct (IH Hq) as (j & p' & Hin & Hout).
    exists j, p'. split; [by right | done].
Qed.

Lemma observe_some_rejected settled q i p e :
  (i, p) ∈ q → outcome p = inl e → is_Some (observe settled q).2.
Proof.
  induction q as [|[j p'] q IH]; [by intros ?%elem_of_nil|].
  intros Hin Hout. cbn. destruct (outcome p') as [e'|a] eqn:Hp; cbn.
  - by eexists.
  - apply elem_of_cons in Hin as [[= -> ->]|Hin]; [congruence|]. by apply IH.
Qed.

(** Whatever the settlement seen is, it is the settlement of a promise of
    the batch. *)
Lemma observe_sub settled q ev :
  ev ∈ (observe settled q).1 → ∃ i p, (i, p) ∈ q ∧ ev = settled i.
Proof.
  induction q as [|[j p'] q IH]; cbn; [by intros ?%elem_of_nil|].
  destruct (outcome p') as [e'|a]; cbn.
  - intros ->%list_elem_of_singleton. exists j, p'. split; [left | done].
  - intros [->|Hin]%elem_of_cons.
    + exists j, p'. split; [left | done].
    + destruct (IH Hin) as (i & p & ? & ?). exists i, p. split; [by right | done].
Qed.

Lemma settle_order_perm promises : settle_order promises ≡ₚ imap pair promises.
Proof. apply merge_sort_Permutation. Qed.

Lemma elem_of_settle_order promises i p :
  (i, p) ∈ settle_order promises ↔ promises !! i = Some p.
Proof.
  rewrite settle_order_perm, elem_of_lookup_imap. split.
  - intros (j & y & [= -> ->] & Hl). done.
  - intros Hl. by exists i, p.
Qed.

Lemma omap_fulfilled promises :
  Forall (λ p, is_Some (fulfilled p)) promises →
  Forall2 (λ p a, outcome p = inr a) promises (omap fulfilled promises).
Proof.
  induction 1 as [|p promises [a Ha] _ IH]; cbn; [constructor|].
  rewrite Ha. constructor; [|done].
  unfold fulfilled in Ha. by destruct (outcome p) as [|a']; simplify_eq.
Qed.

(** Waiting for a batch succeeds exactly when no promise of the batch is
    rejected; every promise has then been seen to settle. *)
Lemma Promise_all_fulfilled settled promises values :
  returned (await_Promise_all settled promises) = inr values →
  Forall2 (λ p a, outcome p = inr a) promises values
  ∧ trace (await_Promise_all settled promises)
    = settled <$> (settle_order promises).*1
  ∧ ∀ i, (i < length promises)%nat →
         settled i ∈ trace (await_Promise_all settled promises).
Proof.
  unfold await_Promise_all.
  destruct (observe settled (settle_order promises)) as [t [e|]] eqn:Hobs;
    cbn; [done|]. intros [= <-].
  destruct (observe_fulfilled settled (settle_order promises)) as [Ht Hall];
    [by rewrite Hobs|]. rewrite Hobs in Ht. cbn in Ht. subst t.
  assert (Forall (λ p, is_Some (fulfilled p)) promises) as Hall'.
  { apply Forall_forall. intros p [i Hi]%list_elem_of_lookup.
    apply elem_of_settle_order in Hi.
    by apply (proj1 (Forall_forall _ _) Hall (i, p)). }
  split; [by apply omap_fulfilled|]. split; [done|].
  intros i Hi. destruct (lookup_lt_is_Some_2 promises i Hi) as [p Hp].
  apply elem_of_settle_order in Hp.
  apply list_elem_of_fmap. exists i. split; [done|].
  apply list_elem_of_fmap. by exists (i, p).
Qed.

(** Waiting for a batch with a rejected promise is rejected, with the
    reason of a rejected promise of the batch. *)
Lemma Promise_all_rejected settled promises p e :
  p ∈ promises → outcome p = inl e →
  ∃ e', returned (await_Promise_all settled promises) = inl e'
        ∧ ∃ p', p' ∈ promises ∧ outcome p' = inl e'.
Proof.
  intros [i Hi]%list_elem_of_lookup Hout.
  apply elem_of_settle_order in Hi.
  destruct (observe_some_rejected settled _ _ _ _ Hi Hout) as [e' He'].
  exists e'. unfold await_Promise_all. rewrite He'. split; [done|].
  destruct (observe_rejected _ _ _ He') as (j & p' & Hin & Hp').
  exists p'. split; [|done].
  apply elem_of_settle_order in Hin. by eapply list_elem_of_lookup_2.
Qed.

(** Only settlements are seen while waiting. *)
Lemma Promise_all_trace settled promises ev :
  ev ∈ trace (await_Promise_all settled promises) →
  ∃ i, (i < length promises)%nat ∧ ev = settled i.
Proof.
  unfold await_Promise_all. intros Hin.
  assert (ev ∈ (observe settled (settle_order promises)).1) as Hev.
  { by destruct (observe settled (settle_order promises)) as [t [e'|]]. }
  destruct (observe_sub _ _ _ Hev) as (i & p & Hip & ->).
  exists i. split; [|done].
  apply elem_of_settle_order in Hip. by eapply lookup_lt_Some.
Qed.

End promise_all.

(** ** [path.basename] *)

Lemma until_slash_no_slash cs : Forall (λ c, is_slash c = false) (until_slash cs).
Proof.
  induction cs as [|c cs IH]; cbn; [constructor|].
  destruct (is_slash c) eqn:Hc; by constructor.
Qed.

Lemma skip_slashes_id cs :
  Forall (λ c, is_slash c = false) cs → skip_slashes cs = cs.
Proof. destruct 1 as [|c cs Hc _]; cbn; [done|]. by rewrite Hc. Qed.

Lemma until_slash_id cs :
  Forall (λ c, is_slash c = false) cs → until_slash cs = cs.
Proof. induction 1 as [|c cs Hc _ IH]; cbn; [done|]. by rewrite Hc, IH. Qed.

(** A base name has no directory component left: it is its own base name. *)
Lemma basename_idempotent p : basename (basename p) = basename p.
Proof.
  unfold basename.
  set (r := until_slash (skip_slashes (rev (list_ascii_of_string p)))).
  assert (Forall (λ c, is_slash c = false) r) as Hr by apply until_slash_no_slash.
  rewrite list_ascii_of_string_of_list_ascii, rev_involutive.
  by rewrite skip_slashes_id, until_slash_id.
Qed.

(** ** Objects *)

Section objects.

Context {V : Type}.
Implicit Types (o : JsObject V) (k : string) (v : V).

Lemma obj_get_define_own o k v k' :
  obj_get (define_own k v o) k' = if decide (k = k') then Some v else obj_get o k'.
Proof.
  induction o as [|[k0 v0] o IH]; cbn.
  - by repeat case_decide.
  - destruct (decide (k0 = k)) as [->|Hne]; cbn.
    + by repeat case_decide.
    + rewrite IH. repeat case_decide; congruence.
Qed.

Lemma obj_get_None o k : obj_get o k = None ↔ k ∉ own_keys o.
Proof.
  unfold own_keys. induction o as [|[k0 v0] o IH]; cbn.
  - split; [intros _ ?%elem_of_nil | ]; done.
  - rewrite not_elem_of_cons. case_decide as Hk; [|rewrite IH]; cbn; intuition congruence.
Qed.

Lemma elem_of_define_own o k v e :
  e ∈ define_own k v o → e = (k, v) ∨ e ∈ o.
Proof.
  induction o as [|[k0 v0] o IH]; cbn.
  - intros ->%list_elem_of_singleton. by left.
  - case_decide as Hk.
    + intros [->|?]%elem_of_cons; [by left | right; by right].
    + intros [->|?]%elem_of_cons; [right; left | ].
      destruct IH as [?|?]; [done | by left | right; by right].
Qed.

Lemma elem_of_obj_set o k v e : e ∈ obj_set k v o → e = (k, v) ∨ e ∈ o.
Proof. unfold obj_set. case_decide; [by right | apply elem_of_define_own]. Qed.

Lemma own_keys_define_own o k v :
  own_keys (define_own k v o)
  = if decide (k ∈ own_keys o) then own_keys o else (own_keys o ++ [k])%list.
Proof.
  unfold own_keys. induction o as [|[k0 v0] o IH]; cbn.
  - rewrite decide_False; [done | apply not_elem_of_nil].
  - destruct (decide (k0 = k)) as [->|Hne]; cbn.
    + rewrite decide_True; [done | left].
    + rewrite IH. destruct (decide (k ∈ o.*1)) as [Hin|Hnin].
      * rewrite decide_True; [done | by right].
      * rewrite decide_False; [done|]. rewrite not_elem_of_cons. naive_solver.
Qed.

Lemma NoDup_define_own o k v :
  NoDup (own_keys o) → NoDup (own_keys (define_own k v o)).
Proof.
  intros Hnd. rewrite own_keys_define_own. case_decide as Hin; [done|].
  apply NoDup_app. split_and!; [done | | apply NoDup_singleton].
  intros x Hx ->%list_elem_of_singleton. done.
Qed.

Lemma NoDup_obj_set o k v : NoDup (own_keys o) → NoDup (own_keys (obj_set k v o)).
Proof. unfold obj_set. case_decide; [done | apply NoDup_define_own]. Qed.

(** ["__proto__"] never becomes an own key. *)
Lemma obj_set_proto o k v :
  "__proto__" ∉ own_keys o → "__proto__" ∉ own_keys (obj_set k v o).
Proof.
  unfold obj_set. case_decide as Hk; [done|].
  rewrite own_keys_define_own. case_decide; [done|].
  rewrite not_elem_of_app, list_elem_of_singleton. naive_solver.
Qed.

Lemma omap_indexed_filter o : (omap indexed o).*2 = filter (λ e, named e = false) o.
Proof.
  induction o as [|e o IH]; [done|]. cbn [omap list_omap].
  rewrite filter_cons. case_decide as Hd; unfold named in Hd; unfold indexed at 1;
    destruct (array_index e.1) as [n|]; try done; cbn; by rewrite IH.
Qed.

(** [Object.entries] lists every own property once. *)
Lemma Object_entries_perm o : Object_entries o ≡ₚ o.
Proof.
  unfold Object_entries. rewrite merge_sort_Permutation, omap_indexed_filter.
  induction o as [|e o IH]; [done|].
  destruct (named e) eqn:He.
  - rewrite filter_cons_False by congruence. rewrite filter_cons_True by done.
    rewrite <- Permutation_middle. by f_equiv.
  - rewrite filter_cons_True by done. rewrite filter_cons_False by congruence.
    cbn. by f_equiv.
Qed.

Lemma elem_of_Object_entries o e : e ∈ Object_entries o ↔ e ∈ o.
Proof. by rewrite Object_entries_perm. Qed.

Lemma length_Object_entries o : length (Object_entries o) = length o.
Proof. by rewrite Object_entries_perm. Qed.

(** Without array-index keys, [Object.entries] follows creation order. *)
Lemma Object_entries_named o :
  Forall (λ e, array_index e.1 = None) o → Object_entries o = o.
Proof.
  intros Hall. unfold Object_entries.
  assert (omap indexed o = []) as ->.
  { induction Hall as [|e o He _ IH]; [done|]. cbn. unfold indexed at 1.
    by rewrite He. }
  cbn. induction Hall as [|e o He _ IH]; [done|].
  rewrite filter_cons_True by (unfold named; by rewrite He). by rewrite IH.
Qed.

(** The array-index keys come out in ascending order. *)
Lemma Object_entries_sorted o :
  StronglySorted index_le (merge_sort index_le (omap indexed o)).
Proof.
  apply StronglySorted_merge_sort.
  - intros x y z. unfold index_le. lia.
  - intros x y. unfold index_le. lia.
Qed.

End objects.

(** ** The payload staged for a file *)

Lemma staged_lookup f newTags : staged newTags !! tagName f = desired f newTags.
Proof.
  unfold staged, stage.
  destruct f, newTags as [[c|] [l|] [r|]]; cbn;
    repeat (rewrite lookup_insert_eq || (rewrite lookup_insert_ne by done));
    by rewrite ?lookup_empty.
Qed.

Lemma staged_lookup_Some k v newTags :
  staged newTags !! k = Some v → ∃ f, k = tagName f ∧ desired f newTags = Some v.
Proof.
  unfold staged, stage. intros Hk.
  destruct (decide (k = "XMP:Rights")) as [->|Hr];
    [exists on_rights; split; [done|]; by rewrite <- staged_lookup|].
  destruct (decide (k = "XMP:License")) as [->|Hl];
    [exists on_license; split; [done|]; by rewrite <- staged_lookup|].
  destruct (decide (k = "XMP:Creator")) as [->|Hc];
    [exists on_creator; split; [done|]; by rewrite <- staged_lookup|].
  exfalso. destruct newTags as [[c|] [l|] [r|]]; cbn in Hk;
    repeat (rewrite lookup_insert_ne in Hk by done);
    by rewrite lookup_empty in Hk.
Qed.

(** The payload has a key exactly when [newTags] has one of the three. *)
Lemma staged_nonempty newTags :
  size (staged newTags) ≠ 0 ↔ ∃ f, is_Some (desired f newTags).
Proof.
  rewrite map_size_ne_0_lookup. split.
  - intros (k & v & Hk). destruct (staged_lookup_Some _ _ _ Hk) as (f & _ & Hf).
    exists f. by rewrite Hf.
  - intros (f & Hf). exists (tagName f). by rewrite staged_lookup.
Qed.

(** ** The mapping built by [getTags] *)

Lemma add_linkedFile_obj_set linkedFiles rawTags :
  add_linkedFile linkedFiles rawTags
  = obj_set (basename (SourceFile rawTags)) (as_linkedFile rawTags) linkedFiles.
Proof. reflexivity. Qed.

Lemma elem_of_linkedFiles allTags linkedFiles entry :
  entry ∈ foldl add_linkedFile linkedFiles allTags →
  entry ∈ linkedFiles
  ∨ ∃ tags, tags ∈ allTags
            ∧ entry = (basename (SourceFile tags), as_linkedFile tags).
Proof.
  revert linkedFiles.
  induction allTags as [|tags allTags IH]; intros linkedFiles; cbn; [by left|].
  intros [Hin|(tags' & Hin & ->)]%IH.
  - rewrite add_linkedFile_obj_set in Hin.
    apply elem_of_obj_set in Hin as [->|Hin]; [right | by left].
    exists tags. split; [left | done].
  - right. exists tags'. split; [by right | done].
Qed.

Lemma NoDup_linkedFiles allTags linkedFiles :
  NoDup (own_keys linkedFiles) →
  NoDup (own_keys (foldl add_linkedFile linkedFiles allTags)).
Proof.
  revert linkedFiles.
  induction allTags as [|tags allTags IH]; intros linkedFiles Hnd; cbn; [done|].
  apply IH. rewrite add_linkedFile_obj_set. by apply NoDup_obj_set.
Qed.

(** Last write wins: the entry under a base name is made of the last
    payload with that base name. *)
Lemma obj_get_linkedFiles allTags linkedFiles id :
  id ≠ "__proto__" →
  obj_get (foldl add_linkedFile linkedFiles allTags) id
  = match last (filter (λ tags, basename (SourceFile tags) = id) allTags) with
    | Some tags => Some (as_linkedFile tags)
    | None => obj_get linkedFiles id
    end.
Proof.
  intros Hid. revert linkedFiles.
  induction allTags as [|tags allTags IH]; intros linkedFiles; [done|].
  cbn [foldl].
  rewrite IH, add_linkedFile_obj_set, filter_cons. unfold obj_set.
  destruct (decide (basename (SourceFile tags) = id)) as [Heq|Hne].
  - rewrite last_cons. rewrite decide_False by congruence.
    rewrite obj_get_define_own, decide_True by done.
    by destruct (last _).
  - destruct (last _); [done|]. case_decide; [done|].
    by rewrite obj_get_define_own, decide_False.
Qed.

(** A file whose base name is ["__proto__"] gets no entry. *)
Lemma obj_get_linkedFiles_proto allTags :
  obj_get (foldl add_linkedFile obj_empty allTags) "__proto__" = None.
Proof.
  apply obj_get_None.
  assert (∀ linkedFiles : JsObject linkedFileType,
    "__proto__" ∉ own_keys linkedFiles →
    "__proto__" ∉ own_keys (foldl add_linkedFile linkedFiles allTags)) as H.
  { induction allTags as [|tags allTags IH]; intros linkedFiles Hl; cbn; [done|].
    apply IH. rewrite add_linkedFile_obj_set. by apply obj_set_proto. }
  apply H, not_elem_of_nil.
Qed.

(** ** The read phase *)

Section read_phase.

Variable readRaw : string → list string → promise Tags.

Lemma getTags_fulfilled files fileTags :
  returned (getTags readRaw files) = inr fileTags →
  ∃ allTags,
    Forall2 (λ file tags, outcome (readRaw file ["all"; "-xmp:all"]) = inr tags)
      files allTags
    ∧ fileTags = foldl add_linkedFile obj_empty allTags
    ∧ trace (getTags readRaw files)
      = (read_calls files
         ++ (read_settled <$> (settle_order (read_promises readRaw files)).*1))%list.
Proof.
  rewrite getTags_run. cbn.
  destruct (returned (await_Promise_all read_settled (read_promises readRaw files)))
    as [e|allTags] eqn:Hr; [done|].
  intros [= <-]. apply Promise_all_fulfilled in Hr as (Hall & Ht & _).
  exists allTags. split_and!; [|done|by rewrite Ht].
  unfold read_promises in Hall. by apply Forall2_fmap_l in Hall.
Qed.

(** Every read has settled when [getTags] returns a mapping. *)
Lemma getTags_all_settled files fileTags i :
  returned (getTags readRaw files) = inr fileTags →
  (i < length files)%nat →
  read_settled i ∈ trace (getTags readRaw files).
Proof.
  rewrite getTags_run. cbn.
  destruct (returned (await_Promise_all read_settled (read_promises readRaw files)))
    as [e|allTags] eqn:Hr; [done|].
  intros _ Hi. apply Promise_all_fulfilled in Hr as (_ & _ & Hs).
  apply elem_of_app. right. apply Hs. unfold read_promises.
  by rewrite length_fmap.
Qed.

Lemma getTags_all_called files file :
  file ∈ files →
  readRaw_called file ["all"; "-xmp:all"] ∈ trace (getTags readRaw files).
Proof.
  intros Hin. rewrite getTags_run. cbn. apply elem_of_app. left.
  unfold read_calls. apply list_elem_of_fmap. by exists file.
Qed.

(** The read phase only reads. *)
Lemma getTags_only_reads files ev :
  ev ∈ trace (getTags readRaw files) → is_read ev = true.
Proof.
  rewrite getTags_run. cbn. intros [Hin|Hin]%elem_of_app.
  - unfold read_calls in Hin. by apply list_elem_of_fmap in Hin as (file & -> & _).
  - by apply Promise_all_trace in Hin as (i & _ & ->).
Qed.

(** An entry of the mapping is made of the payload of one of the files;
    its key and its [fileName] are the base name of the reported path. *)
Lemma getTags_entry files fileTags id currentTags :
  returned (getTags readRaw files) = inr fileTags →
  (id, currentTags) ∈ fileTags →
  ∃ file tags,
    file ∈ files
    ∧ outcome (readRaw file ["all"; "-xmp:all"]) = inr tags
    ∧ id = basename (SourceFile tags)
    ∧ currentTags = as_linkedFile tags.
Proof.
  intros (allTags & Hall & -> & _)%getTags_fulfilled Hin.
  apply elem_of_linkedFiles in Hin as [Hin|(tags & Hin & [= -> ->])];
    [by apply elem_of_nil in Hin|].
  apply list_elem_of_lookup in Hin as [i Hi].
  destruct (Forall2_lookup_r _ _ _ _ _ Hall Hi) as (file & Hfile & Hout).
  exists file, tags. split_and!; [by eapply list_elem_of_lookup_2 | done..].
Qed.

Lemma getTags_entry_baseName files fileTags id currentTags :
  returned (getTags readRaw files) = inr fileTags →
  (id, currentTags) ∈ fileTags →
  basename (fileName currentTags) = id.
Proof.
  intros Hr Hin.
  destruct (getTags_entry _ _ _ _ Hr Hin) as (file & tags & _ & _ & -> & ->).
  cbn. apply basename_idempotent.
Qed.

(** One rejected read rejects the whole of [getTags], with the reason of
    a rejected read. *)
Lemma getTags_rejects files file err :
  file ∈ files →
  outcome (readRaw file ["all"; "-xmp:all"]) = inl err →
  ∃ e, returned (getTags readRaw files) = inl e
       ∧ ∃ file', file' ∈ files
                  ∧ outcome (readRaw file' ["all"; "-xmp:all"]) = inl e.
Proof.
  intros Hin Hout.
  destruct (Promise_all_rejected read_settled (read_promises readRaw files)
              (readRaw file ["all"; "-xmp:all"]) err) as (e & He & p' & Hp' & Hout');
    [unfold read_promises; apply list_elem_of_fmap; by exists file | done |].
  exists e. rewrite getTags_run. cbn. rewrite He. split; [done|].
  unfold read_promises in Hp'. apply list_elem_of_fmap in Hp' as (file' & -> & ?).
  by exists file'.
Qed.

End read_phase.

(** ** Sorting commutes with a change of data that keeps the order *)

Section sort_fmap.

Context {A B : Type} (R : relation A) (R' : relation B) (h : A → B).
Context `{∀ x y, Decision (R x y)} `{∀ x y, Decision (R' x y)}.
Hypothesis R_h : ∀ x y, R x y ↔ R' (h x) (h y).

Local Abbreviation on_stack st :=
  (fmap (M:=list) (fmap (M:=option) (fmap (M:=list) h)) st).

Lemma list_merge_fmap l1 l2 :
  h <$> list_merge R l1 l2 = list_merge R' (h <$> l1) (h <$> l2).
Proof.
  revert l2. induction l1 as [|x1 l1 IH1]; intros l2; [by destruct l2|].
  induction l2 as [|x2 l2 IH2]; [done|].
  cbn [list_merge fmap list_fmap].
  destruct (decide (R x1 x2)) as [Hx|Hx].
  - rewrite decide_True by (by apply R_h). cbn. f_equal. apply IH1.
  - rewrite decide_False by (by rewrite <- R_h). cbn. f_equal. apply IH2.
Qed.

Lemma merge_list_to_stack_fmap st l :
  on_stack (merge_list_to_stack R st l)
  = merge_list_to_stack R' (on_stack st) (h <$> l).
Proof.
  revert l. induction st as [|[l'|] st IH]; intros l; cbn; [done| |done].
  f_equal. by rewrite IH, list_merge_fmap.
Qed.

Lemma merge_stack_fmap st :
  h <$> merge_stack R st = merge_stack R' (on_stack st).
Proof.
  induction st as [|[l'|] st IH]; cbn; [done| |done].
  by rewrite list_merge_fmap, IH.
Qed.

Lemma merge_sort_aux_fmap st l :
  h <$> merge_sort_aux R st l
  = merge_sort_aux R' (on_stack st) (h <$> l).
Proof.
  revert st. induction l as [|x l IH]; intros st; cbn; [apply merge_stack_fmap|].
  rewrite IH. f_equal. apply (merge_list_to_stack_fmap st [x]).
Qed.

Lemma merge_sort_fmap l : h <$> merge_sort R l = merge_sort R' (h <$> l).
Proof. apply (merge_sort_aux_fmap []). Qed.

End sort_fmap.

(** ** Runs that differ in one tag of the payloads *)

Section promise_map.

Context {A B : Type} (h : A → B).

Lemma settle_order_promise_map (promises : list (promise A)) :
  settle_order (promise_map h <$> promises)
  = prod_map id (promise_map h) <$> settle_order promises.
Proof.
  unfold settle_order.
  rewrite (merge_sort_fmap settles_before settles_before
             (prod_map id (promise_map h))) by done.
  f_equal. by rewrite imap_fmap, fmap_imap.
Qed.

Lemma observe_promise_map settled (q : list (nat * promise A)) :
  observe settled (prod_map id (promise_map h) <$> q) = observe settled q.
Proof.
  induction q as [|[i p] q IH]; [done|]. cbn. rewrite IH.
  by destruct (outcome p).
Qed.

Lemma omap_fulfilled_promise_map (promises : list (promise A)) :
  omap fulfilled (promise_map h <$> promises) = h <$> omap fulfilled promises.
Proof.
  induction promises as [|p promises IH]; [done|].
  cbn [fmap list_fmap omap list_omap]. rewrite IH.
  unfold fulfilled. cbn. by destruct (outcome p).
Qed.

Lemma Promise_all_promise_map settled (promises : list (promise A)) :
  await_Promise_all settled (promise_map h <$> promises)
  = {| trace := trace (await_Promise_all settled promises);
       returned := match returned (await_Promise_all settled promises) with
                   | inl e => inl e
                   | inr values => inr (h <$> values)
                   end |}.
Proof.
  unfold await_Promise_all.
  rewrite settle_order_promise_map, observe_promise_map,
    omap_fulfilled_promise_map.
  by destruct (observe settled (settle_order promises)) as [t [e|]].
Qed.

End promise_map.

Section on_values.

Context {V W : Type} (g : V → W).

Lemma define_own_on_values k v (o : JsObject V) :
  define_own k (g v) (on_values g o) = on_values g (define_own k v o).
Proof.
  unfold on_values. induction o as [|[k' v'] o IH]; [done|]. cbn.
  case_decide; cbn; [done|]. by rewrite IH.
Qed.

Lemma obj_set_on_values k v (o : JsObject V) :
  obj_set k (g v) (on_values g o) = on_values g (obj_set k v o).
Proof. unfold obj_set. case_decide; [done | apply define_own_on_values]. Qed.

Lemma omap_indexed_on_values (o : JsObject V) :
  omap indexed (on_values g o)
  = prod_map id (prod_map id g) <$> omap indexed o.
Proof.
  unfold on_values. induction o as [|[k v] o IH]; [done|].
  cbn [fmap list_fmap omap list_omap]. rewrite IH.
  unfold indexed. cbn. by destruct (array_index k).
Qed.

Lemma filter_named_on_values (o : JsObject V) :
  filter (λ e, named e = true) (on_values g o)
  = on_values g (filter (λ e, named e = true) o).
Proof.
  unfold on_values. induction o as [|[k v] o IH]; [done|].
  cbn [fmap list_fmap]. rewrite !filter_cons, IH.
  change (named (prod_map id g (k, v))) with (named (k, v)).
  by case_decide.
Qed.

(** [Object.entries] looks at the keys only. *)
Lemma Object_entries_on_values (o : JsObject V) :
  Object_entries (on_values g o) = on_values g (Object_entries o).
Proof.
  unfold Object_entries. rewrite omap_indexed_on_values, filter_named_on_values.
  rewrite <- (merge_sort_fmap index_le index_le
                (prod_map id (prod_map id g))) by done.
  unfold on_values. rewrite fmap_app. f_equal.
  rewrite <- !list_fmap_compose. by apply list_fmap_ext; intros i [n [k v]] _.
Qed.

End on_values.

(** ** The loop and the write phase *)

Section write_phase.

Variable readRaw : string → list string → promise Tags.
Variable write : jsval → xmpTagType → list string → promise ().

Lemma write_requests_none t :
  (∀ ev, ev ∈ t → is_write ev = false) → write_requests t = [].
Proof.
  intros Ht. unfold write_requests. induction t as [|ev t IH]; [done|].
  rewrite filter_cons_False.
  - apply IH. intros ev' ?. apply Ht. by right.
  - rewrite (Ht ev); [done | left].
Qed.

Lemma write_requests_file_events newTags currentTags :
  write_requests (file_events newTags currentTags) = file_writes newTags currentTags.
Proof.
  unfold write_requests, file_events. rewrite filter_app.
  rewrite (write_requests_none (_ <$> _)).
  - unfold file_writes. by case_bool_decide.
  - by intros ev (w & -> & _)%list_elem_of_fmap.
Qed.

Lemma write_requests_loop_events newTags fileTags :
  write_requests (loop_events newTags fileTags)
  = Object_entries fileTags ≫= λ entry, file_writes newTags entry.2.
Proof.
  unfold loop_events. induction (Object_entries fileTags) as [|entry entries IH];
    [done|].
  rewrite !bind_cons. unfold write_requests in *.
  rewrite filter_app, IH. f_equal. apply write_requests_file_events.
Qed.

Lemma write_phase_no_request promises ev :
  ev ∈ write_phase promises → is_write ev = false ∧ is_read ev = false.
Proof.
  unfold write_phase. intros [Hin|Hin]%elem_of_app.
  - by apply Promise_all_trace in Hin as (i & _ & ->).
  - destruct (returned _); [|by apply elem_of_nil in Hin].
    by apply list_elem_of_singleton in Hin as ->.
Qed.

Lemma loop_events_no_read newTags fileTags ev :
  ev ∈ loop_events newTags fileTags → is_read ev = false.
Proof.
  unfold loop_events. intros (entry & Hin & _)%list_elem_of_bind.
  unfold file_events, file_writes in Hin.
  apply elem_of_app in Hin as [(w & -> & _)%list_elem_of_fmap|Hin]; [done|].
  case_bool_decide; [|by apply elem_of_nil in Hin].
  by apply list_elem_of_singleton in Hin as ->.
Qed.

(** The write requests of a run: one for each entry of the mapping when
    the payload has a key, none otherwise. *)
Lemma write_requests_run files newTags fileTags :
  returned (getTags readRaw files) = inr fileTags →
  write_requests (trace (writeImageTags readRaw write files newTags))
  = Object_entries fileTags ≫= λ entry, file_writes newTags entry.2.
Proof.
  intros Hr. rewrite (writeImageTags_run _ _ _ _ _ Hr). cbn [trace].
  unfold write_requests. rewrite !filter_app.
  fold (write_requests (trace (getTags readRaw files))).
  fold (write_requests (loop_events newTags fileTags)).
  fold (write_requests (write_phase (loop_promises write newTags fileTags))).
  rewrite (write_requests_none (trace _)), (write_requests_none (write_phase _)).
  - by rewrite app_nil_r, write_requests_loop_events.
  - intros ev Hev. by apply write_phase_no_request in Hev as [? _].
  - intros ev Hev%getTags_only_reads. destruct ev; cbn in *; congruence.
Qed.

Lemma write_requests_targeted newTags (entries : list (string * linkedFileType)) :
  (∃ f, is_Some (desired f newTags)) →
  entries ≫= (λ entry, file_writes newTags entry.2)
  = (λ entry, write_called (sourceFile entry.2) (staged newTags)
                ["-overwrite_original"]) <$> entries.
Proof.
  intros Hf%staged_nonempty. unfold file_writes.
  rewrite bool_decide_eq_true_2 by done.
  induction entries as [|entry entries IH]; [done|].
  by rewrite bind_cons, IH.
Qed.

Lemma write_requests_untargeted newTags (entries : list (string * linkedFileType)) :
  (∀ f, desired f newTags = None) →
  entries ≫= (λ entry, file_writes newTags entry.2) = [].
Proof.
  intros Hf. unfold file_writes. rewrite bool_decide_eq_false_2.
  - induction entries as [|entry entries IH]; [done|]. by rewrite bind_cons, IH.
  - rewrite staged_nonempty. intros (f & v & Hv). by rewrite Hf in Hv.
Qed.

(** A request in the trace is that of an entry, with the staged payload. *)
Lemma write_called_inv files newTags fileTags src tags args :
  returned (getTags readRaw files) = inr fileTags →
  write_called src tags args ∈ trace (writeImageTags readRaw write files newTags) →
  (∃ entry, entry ∈ Object_entries fileTags ∧ src = sourceFile entry.2)
  ∧ tags = staged newTags ∧ args = ["-overwrite_original"]
  ∧ size (staged newTags) ≠ 0.
Proof.
  intros Hr Hin.
  assert (write_called src tags args
          ∈ write_requests (trace (writeImageTags readRaw write files newTags)))
    as Hw by (by apply list_elem_of_filter).
  rewrite (write_requests_run _ _ _ Hr) in Hw.
  apply list_elem_of_bind in Hw as (entry & Hw & Hentry).
  unfold file_writes in Hw. case_bool_decide as Hsz; [|by apply elem_of_nil in Hw].
  apply list_elem_of_singleton in Hw as [= -> -> ->]. split_and!; eauto.
Qed.

Lemma returned_run files newTags fileTags :
  returned (getTags readRaw files) = inr fileTags →
  returned (writeImageTags readRaw write files newTags)
  = inr (Object_entries fileTags ≫= entry_warnings newTags).
Proof.
  intros Hr. rewrite (writeImageTags_run _ _ _ _ _ Hr). cbn [returned]. f_equal.
  apply Forall_bind_ext, Forall_forall. intros [id currentTags] Hin.
  apply (proj1 (elem_of_Object_entries _ _)) in Hin.
  unfold file_warnings, entry_warnings, tracked_fields. cbn [fst snd].
  rewrite (getTags_entry_baseName _ _ _ _ _ Hr Hin). cbn.
  by rewrite app_nil_r.
Qed.

End write_phase.

(** ** A field that is not targeted does not matter *)

Section frame.

Variable readRaw : string → list string → promise Tags.
Variable write : jsval → xmpTagType → list string → promise ().

Lemma read_promises_forgetting f files :
  read_promises (forgetting f readRaw) files
  = promise_map (forget f) <$> read_promises readRaw files.
Proof. unfold read_promises, forgetting. by rewrite <- list_fmap_compose. Qed.

Lemma linkedFiles_forget f allTags (linkedFiles : JsObject linkedFileType) :
  foldl add_linkedFile (on_values (forget_linked f) linkedFiles)
    (forget f <$> allTags)
  = on_values (forget_linked f) (foldl add_linkedFile linkedFiles allTags).
Proof.
  revert linkedFiles.
  induction allTags as [|tags allTags IH]; intros linkedFiles; [done|].
  cbn [fmap list_fmap foldl]. rewrite <- IH. f_equal.
  rewrite !add_linkedFile_obj_set.
  rewrite <- (obj_set_on_values (forget_linked f)). by destruct f.
Qed.

Lemma getTags_forgetting f files :
  getTags (forgetting f readRaw) files
  = {| trace := trace (getTags readRaw files);
       returned := match returned (getTags readRaw files) with
                   | inl e => inl e
                   | inr fileTags => inr (on_values (forget_linked f) fileTags)
                   end |}.
Proof.
  rewrite !getTags_run, read_promises_forgetting, Promise_all_promise_map.
  cbn [trace returned].
  destruct (returned (await_Promise_all read_settled (read_promises readRaw files)))
    as [e|allTags]; [done|].
  do 2 f_equal. apply (linkedFiles_forget f allTags obj_empty).
Qed.

Lemma file_warnings_forget f newTags currentTags :
  desired f newTags = None →
  file_warnings newTags (forget_linked f currentTags)
  = file_warnings newTags currentTags.
Proof.
  intros Hf. unfold file_warnings. destruct f; cbn in *; by rewrite Hf.
Qed.

Lemma loop_forget f newTags (fileTags : JsObject linkedFileType) :
  desired f newTags = None →
  loop_events newTags (on_values (forget_linked f) fileTags)
  = loop_events newTags fileTags
  ∧ loop_promises write newTags (on_values (forget_linked f) fileTags)
    = loop_promises write newTags fileTags
  ∧ Object_entries (on_values (forget_linked f) fileTags)
      ≫= (λ entry, file_warnings newTags entry.2)
    = Object_entries fileTags ≫= (λ entry, file_warnings newTags entry.2).
Proof.
  intros Hf. unfold loop_events, loop_promises.
  rewrite Object_entries_on_values. unfold on_values.
  rewrite !list_fmap_bind.
  split_and!; apply list_bind_ext; try done; intros [id currentTags]; cbn.
  - unfold file_events. by rewrite file_warnings_forget.
  - by apply file_warnings_forget.
Qed.

(** A run does not see the tag of a field that [newTags] does not have. *)
Lemma writeImageTags_forgetting f files newTags :
  desired f newTags = None →
  writeImageTags (forgetting f readRaw) write files newTags
  = writeImageTags readRaw write files newTags.
Proof.
  intros Hf. pose proof (getTags_forgetting f files) as Hg.
  destruct (returned (getTags readRaw files)) as [e|fileTags] eqn:Hr.
  - rewrite (writeImageTags_rejected readRaw write files newTags e Hr).
    rewrite (writeImageTags_rejected (forgetting f readRaw) write files newTags e)
      by (by rewrite Hg).
    by rewrite Hg.
  - rewrite (writeImageTags_run readRaw write files newTags fileTags Hr).
    rewrite (writeImageTags_run (forgetting f readRaw) write files newTags
               (on_values (forget_linked f) fileTags)) by (by rewrite Hg).
    destruct (loop_forget f newTags fileTags Hf) as (-> & -> & ->).
    by rewrite Hg.
Qed.

Lemma writeImageTags_ext readRaw' files newTags :
  (∀ file, readRaw' file ["all"; "-xmp:all"] = readRaw file ["all"; "-xmp:all"]) →
  writeImageTags readRaw' write files newTags
  = writeImageTags readRaw write files newTags.
Proof.
  intros Hext. unfold writeImageTags.
  assert (getTags readRaw' files = getTags readRaw files) as ->; [|done].
  rewrite !getTags_run.
  assert (read_promises readRaw' files = read_promises readRaw files) as ->; [|done].
  unfold read_promises. apply list_fmap_ext. intros _ file _. apply Hext.
Qed.

End frame.

(** ** A sample batch *)

Lemma sample_getTags :
  returned (getTags sample_readRaw ["pics/a.jpg"; "pics/b.jpg"]) = inr sample_fileTags.
Proof. vm_compute. reflexivity. Defined.

(** ** The warnings *)

(** On values of the types the interfaces declare ([string | undefined]):
    when the read phase returns a mapping, [writeImageTags] returns
    exactly the warnings accumulated over the entries of the mapping: for
    each entry and each of creator, license, rights that [newTags] has,
    the text "WARNING: Overwriting <baseName> existing <field>:
    <currentValue> with <desiredValue>" if and only if the current value
    differs from the desired one ([undefined] against a string included),
    and nothing else. Every entry of the mapping is visited, and
    <baseName> is its key, which is its [fileName]. The tool may also hand
    over a number where the tag reads like one; [!=] then compares it with
    the desired string as numbers, which is outside these types and this
    statement. *)
Theorem writeImageTags_warnings readRaw write files newTags fileTags :
  returned (getTags readRaw files) = inr fileTags →
  returned (writeImageTags readRaw write files newTags)
  = inr ('(baseName, currentTags) ← Object_entries fileTags;
         field ← [on_creator; on_license; on_rights];
         match desired field newTags with
         | Some desiredValue =>
             if decide (current field currentTags ≠ desiredValue)
             then ["WARNING: Overwriting " +:+ baseName +:+ " existing "
                   +:+ key field +:+ ": " +:+ template (current field currentTags)
                   +:+ " with " +:+ template desiredValue]
             else []
         | None => []
         end)
  ∧ (∀ entry, entry ∈ Object_entries fileTags ↔ entry ∈ fileTags)
  ∧ (∀ baseName currentTags, (baseName, currentTags) ∈ fileTags →
       fileName currentTags = baseName ∧ basename baseName = baseName).
Proof.
  intros Hr. split_and!.
  - rewrite (returned_run _ _ _ _ _ Hr). f_equal.
    apply list_bind_ext; [|done]. intros [baseName currentTags].
    unfold entry_warnings, tracked_fields. apply list_bind_ext; [|done].
    intros field. unfold block_warnings, loose_neq. cbn [fst snd].
    destruct (desired field newTags) as [desiredValue|]; [|done].
    case_bool_decide; case_decide; done.
  - apply elem_of_Object_entries.
  - intros baseName currentTags Hin.
    destruct (getTags_entry _ _ _ _ _ Hr Hin) as (file & tags & _ & _ & -> & ->).
    split; [done | apply basename_idempotent].
Qed.

Lemma writeImageTags_warnings_witness :
  returned (getTags sample_readRaw ["pics/a.jpg"; "pics/b.jpg"]) = inr sample_fileTags
  ∧ returned (writeImageTags sample_readRaw sample_write
                ["pics/a.jpg"; "pics/b.jpg"] carol)
    = inr ["WARNING: Overwriting a.jpg existing creator: Alice with Carol";
           "WARNING: Overwriting b.jpg existing creator: Bob with Carol"].
Proof.
  split; [exact sample_getTags|].
  exact (proj1 (writeImageTags_warnings sample_readRaw sample_write
                  ["pics/a.jpg"; "pics/b.jpg"] carol sample_fileTags sample_getTags)).
Defined.

(** ** The write requests *)

Lemma sample_getTags_a :
  returned (getTags sample_readRaw ["pics/a.jpg"]) = inr sample_a.
Proof. vm_compute. reflexivity. Defined.

Lemma sample_getTags_b :
  returned (getTags sample_readRaw ["pics/b.jpg"]) = inr sample_b.
Proof. vm_compute. reflexivity. Defined.

(** C2. When the read phase returns a mapping: every write request carries,
    for each of creator, license, rights that [newTags] has, the desired
    value under the tag name of the field (creator under "XMP:Creator",
    license under "XMP:License", rights under "XMP:Rights"), whatever the
    current value is; as soon as [newTags] has one of the three keys there
    is one write request for each entry of the mapping; and when every
    desired value equals the current one, no warning is returned and these
    requests are issued all the same. *)
Theorem desired_values_staged readRaw write files newTags fileTags :
  returned (getTags readRaw files) = inr fileTags →
  (tagName on_creator = "XMP:Creator" ∧ tagName on_license = "XMP:License"
   ∧ tagName on_rights = "XMP:Rights")
  ∧ (∀ src tags args,
       write_called src tags args
         ∈ trace (writeImageTags readRaw write files newTags) →
       ∀ field desiredValue,
         desired field newTags = Some desiredValue →
         tags !! tagName field = Some desiredValue)
  ∧ ((∃ field, is_Some (desired field newTags)) →
     write_requests (trace (writeImageTags readRaw write files newTags))
     = (λ entry, write_called (sourceFile entry.2) (staged newTags)
                   ["-overwrite_original"]) <$> Object_entries fileTags)
  ∧ ((∀ baseName currentTags field desiredValue,
        (baseName, currentTags) ∈ fileTags →
        desired field newTags = Some desiredValue →
        current field currentTags = desiredValue) →
     returned (writeImageTags readRaw write files newTags) = inr []
     ∧ ((∃ field, is_Some (desired field newTags)) →
        length (write_requests (trace (writeImageTags readRaw write files newTags)))
        = length fileTags)).
Proof.
  intros Hr. split_and!; [done..| | |].
  - intros src tags args Hin field desiredValue Hd.
    destruct (write_called_inv _ _ _ _ _ _ _ _ Hr Hin) as (_ & -> & _).
    by rewrite staged_lookup.
  - intros Hf. rewrite (write_requests_run _ _ _ _ _ Hr).
    by apply write_requests_targeted.
  - intros Hsame. split.
    + rewrite (returned_run _ _ _ _ _ Hr). f_equal.
      assert (Forall (λ entry, entry_warnings newTags entry = [])
                (Object_entries fileTags)) as Hall.
      { apply Forall_forall. intros [baseName currentTags] Hin.
        apply (proj1 (elem_of_Object_entries _ _)) in Hin.
        unfold entry_warnings, tracked_fields.
        assert (∀ field, block_warnings baseName (key field)
                           (current field currentTags) (desired field newTags) = [])
          as Hb.
        { intros field. unfold block_warnings, loose_neq.
          destruct (desired field newTags) as [d|] eqn:Hd; [|done].
          rewrite (Hsame _ _ _ _ Hin Hd). by rewrite bool_decide_eq_true_2. }
        by rewrite !bind_cons, !Hb. }
      induction Hall as [|entry entries He _ IH]; [done|].
      by rewrite bind_cons, He, IH.
    + intros Hf. rewrite (write_requests_run _ _ _ _ _ Hr).
      rewrite write_requests_targeted by done.
      by rewrite length_fmap, length_Object_entries.
Qed.

Lemma desired_values_staged_witness :
  returned (getTags sample_readRaw ["pics/b.jpg"]) = inr sample_b
  ∧ returned (writeImageTags sample_readRaw sample_write ["pics/b.jpg"]
                same_as_current) = inr []
  ∧ length (write_requests
              (trace (writeImageTags sample_readRaw sample_write ["pics/b.jpg"]
                        same_as_current))) = 1%nat.
Proof.
  split; [exact sample_getTags_b|].
  destruct (desired_values_staged sample_readRaw sample_write ["pics/b.jpg"]
              same_as_current sample_b sample_getTags_b)
    as (_ & _ & _ & Hsame).
  destruct Hsame as [Hw Hn].
  - intros baseName currentTags field desiredValue
      [-> ->]%list_elem_of_singleton%pair_eq Hd.
    destruct field; cbn in Hd; by simplify_eq.
  - split; [exact Hw|]. apply Hn. exists on_rights. by eexists.
Defined.

(** With [{creator: undefined, license: ""}] the file is written although
    no targeted field has a value. *)
Lemma write_without_a_value :
  ¬ write_only_with_a_value sample_readRaw sample_write ["pics/a.jpg"] empty_values.
Proof.
  intros Hclaim.
  destruct (Hclaim (Some "/home/u/pics/a.jpg") (staged empty_values)
              ["-overwrite_original"]) as (field & v & Hd & s & -> & Hs).
  - find_event.
  - destruct field; cbn in Hd; by simplify_eq.
Qed.

(** C3 (amended). When the read phase returns a mapping: a write request
    is issued only if the payload is not empty, that is only if [newTags]
    has at least one of the three keys (whatever the value under the key);
    a request goes to the [sourceFile] of an entry, which is the path the
    tool reported for one of the files, and carries the flag
    "-overwrite_original"; every entry gets its request when the payload
    is not empty; and when [newTags] has none of the three keys no request
    is issued at all. *)
Theorem write_requested_iff_key readRaw write files newTags fileTags :
  returned (getTags readRaw files) = inr fileTags →
  (∀ src tags args,
     write_called src tags args
       ∈ trace (writeImageTags readRaw write files newTags) →
     tags = staged newTags ∧ size tags ≠ 0
     ∧ (∃ field, is_Some (desired field newTags))
     ∧ args = ["-overwrite_original"]
     ∧ ∃ entry file rawTags,
         entry ∈ Object_entries fileTags ∧ src = sourceFile entry.2
         ∧ file ∈ files
         ∧ outcome (readRaw file ["all"; "-xmp:all"]) = inr rawTags
         ∧ src = Some (SourceFile rawTags))
  ∧ (∀ entry, entry ∈ Object_entries fileTags →
       ((∃ field, is_Some (desired field newTags)) ↔ size (staged newTags) ≠ 0)
       ∧ (size (staged newTags) ≠ 0 →
          write_called (sourceFile entry.2) (staged newTags) ["-overwrite_original"]
            ∈ trace (writeImageTags readRaw write files newTags)))
  ∧ ((∀ field, desired field newTags = None) →
     write_requests (trace (writeImageTags readRaw write files newTags)) = []).
Proof.
  intros Hr. split_and!.
  - intros src tags args Hin.
    destruct (write_called_inv _ _ _ _ _ _ _ _ Hr Hin)
      as (([id currentTags] & Hentry & ->) & -> & -> & Hsz).
    split_and!; [done | done | by apply staged_nonempty | done |].
    destruct (getTags_entry _ _ _ _ _ Hr
                (proj1 (elem_of_Object_entries _ _) Hentry))
      as (file & rawTags & Hfile & Hout & -> & ->).
    exists (basename (SourceFile rawTags), as_linkedFile rawTags), file, rawTags.
    by split_and!.
  - intros entry Hentry. split; [symmetry; apply staged_nonempty|].
    intros Hsz.
    assert (write_called (sourceFile entry.2) (staged newTags) ["-overwrite_original"]
            ∈ write_requests (trace (writeImageTags readRaw write files newTags)))
      as Hw.
    { rewrite (write_requests_run _ _ _ _ _ Hr).
      apply list_elem_of_bind. exists entry. split; [|done].
      unfold file_writes. rewrite bool_decide_eq_true_2 by done. left. }
    by apply list_elem_of_filter in Hw as [_ Hw].
  - intros Hnone. rewrite (write_requests_run _ _ _ _ _ Hr).
    by apply write_requests_untargeted.
Qed.

Lemma write_requested_iff_key_witness :
  returned (getTags sample_readRaw ["pics/a.jpg"]) = inr sample_a
  ∧ write_called (Some "/home/u/pics/a.jpg") (staged empty_values)
      ["-overwrite_original"]
    ∈ trace (writeImageTags sample_readRaw sample_write ["pics/a.jpg"] empty_values)
  ∧ write_requests
      (trace (writeImageTags sample_readRaw sample_write ["pics/a.jpg"] no_keys))
    = [].
Proof.
  split; [exact sample_getTags_a|].
  destruct (write_requested_iff_key sample_readRaw sample_write ["pics/a.jpg"]
              empty_values sample_a sample_getTags_a) as (_ & Hall & _).
  destruct (write_requested_iff_key sample_readRaw sample_write ["pics/a.jpg"]
              no_keys sample_a sample_getTags_a) as (_ & _ & Hnone).
  split.
  - destruct (Hall ("a.jpg", {| fileName := "a.jpg"; fileType' := image;
                sourceFile := Some "/home/u/pics/a.jpg";
                creator := Some "Alice"; license := None;
                rights := Some "All rights reserved" |})) as [_ Hw].
    + left.
    + apply Hw. vm_compute. discriminate.
  - apply Hnone. by intros [].
Defined.

(** C4. Whether a field is targeted is decided by [newTags] having the
    key, not by the value under it: the payload of every write request has
    the tag of a field exactly when [newTags] has the key of the field,
    with the value found there, [undefined] included. With the single key
    of a field and the value [undefined] the comparison is made (a warning
    for each entry whose current value is not [undefined]) and every entry
    is written with the tag staged as [undefined]; with no key at all
    nothing is compared and nothing is written. *)
Theorem targeted_by_key_existence readRaw write files fileTags :
  returned (getTags readRaw files) = inr fileTags →
  (∀ newTags src tags args field,
     write_called src tags args
       ∈ trace (writeImageTags readRaw write files newTags) →
     tags !! tagName field = desired field newTags)
  ∧ (∀ field,
       returned (writeImageTags readRaw write files (only field None))
       = inr ('(baseName, currentTags) ← Object_entries fileTags;
              if decide (current field currentTags ≠ None)
              then [overwriting baseName (key field)
                      (current field currentTags) None]
              else [])
       ∧ write_requests
           (trace (writeImageTags readRaw write files (only field None)))
         = (λ entry, write_called (sourceFile entry.2) {[ tagName field := None ]}
                       ["-overwrite_original"]) <$> Object_entries fileTags)
  ∧ returned (writeImageTags readRaw write files no_keys) = inr []
  ∧ write_requests (trace (writeImageTags readRaw write files no_keys)) = [].
Proof.
  intros Hr. split_and!.
  - intros newTags src tags args field Hin.
    destruct (write_called_inv _ _ _ _ _ _ _ _ Hr Hin) as (_ & -> & _).
    apply staged_lookup.
  - intros field. split.
    + rewrite (returned_run _ _ _ _ _ Hr). f_equal.
      apply list_bind_ext; [|done]. intros [baseName currentTags].
      unfold entry_warnings, tracked_fields, block_warnings, loose_neq.
      destruct field; cbn; repeat case_bool_decide; repeat case_decide;
        by simplify_eq.
    + rewrite (write_requests_run _ _ _ _ _ Hr).
      rewrite write_requests_targeted
        by (exists field; destruct field; by eexists).
      apply list_fmap_ext. intros _ entry _. f_equal. by destruct field.
  - rewrite (returned_run _ _ _ _ _ Hr). f_equal.
    induction (Object_entries fileTags) as [|entry entries IH]; [done|].
    by rewrite bind_cons, IH.
  - rewrite (write_requests_run _ _ _ _ _ Hr).
    by apply write_requests_untargeted; intros [].
Qed.

Lemma targeted_by_key_existence_witness :
  returned (getTags sample_readRaw ["pics/a.jpg"; "pics/b.jpg"]) = inr sample_fileTags
  ∧ returned (writeImageTags sample_readRaw sample_write
                ["pics/a.jpg"; "pics/b.jpg"] (only on_license None))
    = inr ["WARNING: Overwriting b.jpg existing license: CC BY with undefined"]
  ∧ returned (writeImageTags sample_readRaw sample_write
                ["pics/a.jpg"; "pics/b.jpg"] no_keys) = inr [].
Proof.
  split; [exact sample_getTags|].
  destruct (targeted_by_key_existence sample_readRaw sample_write
              ["pics/a.jpg"; "pics/b.jpg"] sample_fileTags sample_getTags)
    as (_ & Hkey & Hnone & _).
  split; [exact (proj1 (Hkey on_license)) | exact Hnone].
Defined.

(** ** The mapping returned by [getTags] *)

(** X4. When every read is fulfilled [getTags] returns a mapping with no key
    twice, in which a base name other than ["__proto__"] leads to the entry
    made of the last payload with that base name, and in which
    ["__proto__"] leads nowhere. *)
Lemma getTags_mapping readRaw files allTags :
  Forall2 (λ file tags, outcome (readRaw file ["all"; "-xmp:all"]) = inr tags)
    files allTags →
  ∃ fileTags,
    returned (getTags readRaw files) = inr fileTags
    ∧ NoDup (own_keys fileTags)
    ∧ (∀ id, id ≠ "__proto__" →
         obj_get fileTags id
         = as_linkedFile
             <$> last (filter (λ tags, basename (SourceFile tags) = id) allTags))
    ∧ obj_get fileTags "__proto__" = None.
Proof.
  intros Hall. exists (foldl add_linkedFile obj_empty allTags).
  assert (returned (await_Promise_all read_settled (read_promises readRaw files))
          = inr allTags) as Hawait.
  { unfold await_Promise_all.
    destruct (observe read_settled (settle_order (read_promises readRaw files)))
      as [t [e|]] eqn:Hobs; cbn.
    - destruct (observe_rejected read_settled
                  (settle_order (read_promises readRaw files)) e)
        as (i & p & Hin & Hp); [by rewrite Hobs|].
      apply elem_of_settle_order in Hin. unfold read_promises in Hin.
      rewrite list_lookup_fmap in Hin.
      destruct (files !! i) as [file|] eqn:Hfile; [|done].
      cbn in Hin. simplify_eq.
      destruct (Forall2_lookup_l _ _ _ _ _ Hall Hfile) as (tags & _ & Hout).
      congruence.
    - f_equal. unfold read_promises. clear Hobs.
      induction Hall as [|file tags files allTags Hout _ IH]; [done|].
      cbn. unfold fulfilled at 1. rewrite Hout. by rewrite IH. }
  split_and!.
  - rewrite getTags_run. cbn. by rewrite Hawait.
  - apply NoDup_linkedFiles. constructor.
  - intros id Hid. rewrite obj_get_linkedFiles by done. by destruct (last _).
  - apply obj_get_linkedFiles_proto.
Qed.

(** C5. Two files are read, both reads succeed, and the mapping has one
    entry only: the file whose base name is ["__proto__"] has none. *)
Theorem getTags_loses_proto :
  ∃ fileTags,
    returned (getTags as_given ["pics/a.jpg"; "pics/__proto__"]) = inr fileTags
    ∧ basename "pics/__proto__" = "__proto__"
    ∧ own_keys fileTags = ["a.jpg"]
    ∧ obj_get fileTags "__proto__" = None.
Proof.
  eexists. split; [vm_compute; reflexivity|]. by vm_compute.
Qed.

(** ** Failures *)

(** C6. If the read of one of the files is rejected, [getTags] is rejected
    as a whole, with the reason of a rejected read, and returns no mapping;
    [writeImageTags] is rejected with the same reason, returns no warnings,
    and has done nothing but the reads: no write request, no console
    output. *)
Theorem read_failure_aborts readRaw write files newTags file err :
  file ∈ files →
  outcome (readRaw file ["all"; "-xmp:all"]) = inl err →
  ∃ e,
    (∃ file', file' ∈ files
              ∧ outcome (readRaw file' ["all"; "-xmp:all"]) = inl e)
    ∧ returned (getTags readRaw files) = inl e
    ∧ returned (writeImageTags readRaw write files newTags) = inl e
    ∧ write_requests (trace (writeImageTags readRaw write files newTags)) = []
    ∧ ∀ ev, ev ∈ trace (writeImageTags readRaw write files newTags) →
            is_read ev = true.
Proof.
  intros Hin Hout.
  destruct (getTags_rejects readRaw files file err Hin Hout) as (e & He & Hfile').
  exists e. rewrite (writeImageTags_rejected readRaw write files newTags e He).
  cbn [trace returned]. split_and!; [done..| |apply getTags_only_reads].
  apply write_requests_none. intros ev Hev%getTags_only_reads.
  destruct ev; cbn in *; congruence.
Qed.

Lemma read_failure_aborts_witness :
  ∃ e,
    (∃ file', file' ∈ ["pics/a.jpg"; "pics/gone.jpg"]
              ∧ outcome (sample_readRaw file' ["all"; "-xmp:all"]) = inl e)
    ∧ returned (getTags sample_readRaw ["pics/a.jpg"; "pics/gone.jpg"]) = inl e
    ∧ returned (writeImageTags sample_readRaw sample_write
                  ["pics/a.jpg"; "pics/gone.jpg"] carol) = inl e
    ∧ write_requests (trace (writeImageTags sample_readRaw sample_write
                               ["pics/a.jpg"; "pics/gone.jpg"] carol)) = []
    ∧ ∀ ev, ev ∈ trace (writeImageTags sample_readRaw sample_write
                          ["pics/a.jpg"; "pics/gone.jpg"] carol) →
            is_read ev = true.
Proof.
  apply (read_failure_aborts sample_readRaw sample_write
           ["pics/a.jpg"; "pics/gone.jpg"] carol "pics/gone.jpg"
           {| message := "File not found - pics/gone.jpg" |}).
  - right. left.
  - reflexivity.
Defined.

Section write_failures.

Variable readRaw : string → list string → promise Tags.
Variable write : jsval → xmpTagType → list string → promise ().



End write_failures.

(** ** Fields that are not targeted *)

(** C8. When the read phase returns a mapping and [newTags] is
    [{license: X}]: the warnings returned are license warnings, every
    write payload is exactly [{"XMP:License": X}] (no "XMP:Creator", no
    "XMP:Rights"), and the whole run, events and result, is the same for
    any tool whose payloads differ only in the creator and rights tags.
    In general, for a field whose key [newTags] does not have: the
    warnings returned are those of the other fields, no write payload has
    the tag of the field, and the whole run is the same for any tool whose
    payloads differ only in the tag of that field. *)
Theorem untargeted_field_untouched readRaw write files fileTags :
  returned (getTags readRaw files) = inr fileTags →
  (∀ X,
     returned (writeImageTags readRaw write files (only on_license X))
     = inr ('(baseName, currentTags) ← Object_entries fileTags;
            block_warnings baseName "license" (license currentTags) (Some X))
     ∧ write_requests
         (trace (writeImageTags readRaw write files (only on_license X)))
       = (λ entry, write_called (sourceFile entry.2) {[ "XMP:License" := X ]}
                     ["-overwrite_original"]) <$> Object_entries fileTags
     ∧ ∀ readRaw',
         (∀ file args,
            forgetting on_creator (forgetting on_rights readRaw') file args
            = forgetting on_creator (forgetting on_rights readRaw) file args) →
         writeImageTags readRaw' write files (only on_license X)
         = writeImageTags readRaw write files (only on_license X))
  ∧ ∀ newTags field,
      desired field newTags = None →
      returned (writeImageTags readRaw write files newTags)
      = inr ('(baseName, currentTags) ← Object_entries fileTags;
             other ← filter (λ other, other ≠ field) tracked_fields;
             block_warnings baseName (key other) (current other currentTags)
               (desired other newTags))
      ∧ (∀ src tags args,
           write_called src tags args
             ∈ trace (writeImageTags readRaw write files newTags) →
           tags !! tagName field = None)
      ∧ ∀ readRaw',
          (∀ file args,
             forgetting field readRaw' file args
             = forgetting field readRaw file args) →
          writeImageTags readRaw' write files newTags
          = writeImageTags readRaw write files newTags.
Proof.
  intros Hr. split.
  - intros X. split_and!.
    + rewrite (returned_run _ _ _ _ _ Hr). f_equal.
      apply list_bind_ext; [|done]. intros [baseName currentTags].
      unfold entry_warnings, tracked_fields. cbn. by rewrite app_nil_r.
    + rewrite (write_requests_run _ _ _ _ _ Hr).
      by rewrite write_requests_targeted by (exists on_license; by eexists).
    + intros readRaw' Hsame.
      rewrite <- (writeImageTags_forgetting readRaw' write on_rights) by done.
      rewrite <- (writeImageTags_forgetting (forgetting on_rights readRaw') write
                    on_creator) by done.
      rewrite <- (writeImageTags_forgetting readRaw write on_rights files
                    (only on_license X)) by done.
      rewrite <- (writeImageTags_forgetting (forgetting on_rights readRaw) write
                    on_creator files (only on_license X)) by done.
      apply writeImageTags_ext. intros file. apply Hsame.
  - intros newTags field Hd. split_and!.
    + rewrite (returned_run _ _ _ _ _ Hr). f_equal.
      apply list_bind_ext; [|done]. intros [baseName currentTags].
      unfold entry_warnings, tracked_fields.
      destruct field; cbn in Hd |- *; by rewrite Hd.
    + intros src tags args Hin.
      destruct (write_called_inv _ _ _ _ _ _ _ _ Hr Hin) as (_ & -> & _).
      by rewrite staged_lookup.
    + intros readRaw' Hsame.
      rewrite <- (writeImageTags_forgetting readRaw' write field) by done.
      rewrite <- (writeImageTags_forgetting readRaw write field files newTags)
        by done.
      apply writeImageTags_ext. intros file. apply Hsame.
Qed.

Lemma untargeted_field_untouched_witness :
  returned (getTags sample_readRaw ["pics/a.jpg"; "pics/b.jpg"]) = inr sample_fileTags
  ∧ returned (writeImageTags sample_readRaw sample_write
                ["pics/a.jpg"; "pics/b.jpg"] (only on_license (Some "X")))
    = inr ["WARNING: Overwriting a.jpg existing license: undefined with X";
           "WARNING: Overwriting b.jpg existing license: CC BY with X"]
  ∧ writeImageTags other_readRaw sample_write
      ["pics/a.jpg"; "pics/b.jpg"] (only on_license (Some "X"))
    = writeImageTags sample_readRaw sample_write
        ["pics/a.jpg"; "pics/b.jpg"] (only on_license (Some "X")).
Proof.
  split; [exact sample_getTags|].
  destruct (untargeted_field_untouched sample_readRaw sample_write
              ["pics/a.jpg"; "pics/b.jpg"] sample_fileTags sample_getTags)
    as [Hlicense _].
  destruct (Hlicense (Some "X")) as (Hw & _ & Hsame).
  split; [exact Hw|]. apply Hsame.
  intros file args. unfold forgetting, other_readRaw, sample_readRaw.
  repeat case_decide; reflexivity.
Defined.

(** ** The order of events *)

(** A trace that starts with events of one kind, cut at an event of
    another kind: the cut falls after all of them. *)
Lemma app_cut {A} (P : A → Prop) (l1 l2 before after : list A) (x : A) :
  (l1 ++ l2 = before ++ x :: after)%list →
  Forall P l1 → ¬ P x →
  ∃ mid, before = (l1 ++ mid)%list ∧ l2 = (mid ++ x :: after)%list.
Proof.
  revert before. induction l1 as [|y l1 IH]; intros before Heq Hall Hx.
  - exists before. by split.
  - apply Forall_cons in Hall as [Hy Hall].
    destruct before as [|z before]; cbn in Heq.
    + injection Heq as -> _. done.
    + injection Heq as -> Heq.
      destruct (IH before Heq Hall Hx) as (mid & -> & ->).
      exists mid. by split.
Qed.

(** C9. In a run of [writeImageTags], when a write request is issued the
    read phase is over: every file has been asked for and every read has
    settled before the request, the mapping has been returned and the
    request is computed from it (the [sourceFile] of one of its entries,
    the payload staged from [newTags]), and no read event follows. The
    reads settle in any order among themselves; the requests are issued
    before any of them is waited for. *)
Theorem reads_precede_writes readRaw write files newTags before src tags args after :
  trace (writeImageTags readRaw write files newTags)
  = (before ++ write_called src tags args :: after)%list →
  (∀ file, file ∈ files → readRaw_called file ["all"; "-xmp:all"] ∈ before)
  ∧ (∀ i, (i < length files)%nat → read_settled i ∈ before)
  ∧ (∀ ev, ev ∈ after → is_read ev = false)
  ∧ ∃ fileTags,
      returned (getTags readRaw files) = inr fileTags
      ∧ tags = staged newTags
      ∧ ∃ entry, entry ∈ Object_entries fileTags ∧ src = sourceFile entry.2.
Proof.
  intros Htrace.
  destruct (returned (getTags readRaw files)) as [e|fileTags] eqn:Hr.
  - exfalso. rewrite (writeImageTags_rejected _ _ _ _ _ Hr) in Htrace.
    cbn [trace] in Htrace.
    assert (write_called src tags args ∈ trace (getTags readRaw files)) as Hin.
    { rewrite Htrace. apply elem_of_app. right. left. }
    by apply getTags_only_reads in Hin.
  - assert (write_called src tags args
            ∈ trace (writeImageTags readRaw write files newTags)) as Hin.
    { rewrite Htrace. apply elem_of_app. right. left. }
    destruct (write_called_inv _ _ _ _ _ _ _ _ Hr Hin) as (Hentry & -> & _).
    rewrite (writeImageTags_run _ _ _ _ _ Hr) in Htrace. cbn [trace] in Htrace.
    apply (app_cut (λ ev, is_read ev = true)) in Htrace as (mid & -> & Hrest).
    + split_and!.
      * intros file Hfile. apply elem_of_app. left.
        by apply getTags_all_called.
      * intros i Hi. apply elem_of_app. left.
        by apply (getTags_all_settled readRaw files fileTags).
      * intros ev Hev.
        assert (ev ∈ (loop_events newTags fileTags
                      ++ write_phase (loop_promises write newTags fileTags))%list)
          as [Hl|Hw]%elem_of_app.
        { rewrite Hrest. apply elem_of_app. right. by right. }
        -- by apply loop_events_no_read in Hl.
        -- by apply write_phase_no_request in Hw as [_ ?].
      * by exists fileTags.
    + apply Forall_forall. apply getTags_only_reads.
    + done.
Qed.

Lemma reads_precede_writes_witness :
  trace (writeImageTags sample_readRaw sample_write ["pics/a.jpg"; "pics/b.jpg"] carol)
  = ([readRaw_called "pics/a.jpg" ["all"; "-xmp:all"];
      readRaw_called "pics/b.jpg" ["all"; "-xmp:all"];
      read_settled 1; read_settled 0;
      console_log
        (chalk_red "WARNING: Overwriting a.jpg existing creator: Alice with Carol")]
     ++ write_called (Some "/home/u/pics/a.jpg") {[ "XMP:Creator" := Some "Carol" ]}
          ["-overwrite_original"]
     :: [console_log
           (chalk_red "WARNING: Overwriting b.jpg existing creator: Bob with Carol");
         write_called (Some "/home/u/pics/b.jpg") {[ "XMP:Creator" := Some "Carol" ]}
           ["-overwrite_original"];
         write_settled 0; write_settled 1;
         console_error "Error: file is read-only"])%list
  ∧ ∃ fileTags,
      returned (getTags sample_readRaw ["pics/a.jpg"; "pics/b.jpg"]) = inr fileTags
      ∧ ({[ "XMP:Creator" := Some "Carol" ]} : xmpTagType) = staged carol
      ∧ ∃ entry, entry ∈ Object_entries fileTags
                 ∧ Some "/home/u/pics/a.jpg" = sourceFile entry.2.
Proof.
  assert (trace (writeImageTags sample_readRaw sample_write
                   ["pics/a.jpg"; "pics/b.jpg"] carol)
          = ([readRaw_called "pics/a.jpg" ["all"; "-xmp:all"];
              readRaw_called "pics/b.jpg" ["all"; "-xmp:all"];
              read_settled 1; read_settled 0;
              console_log
                (chalk_red
                   "WARNING: Overwriting a.jpg existing creator: Alice with Carol")]
             ++ write_called (Some "/home/u/pics/a.jpg")
                  {[ "XMP:Creator" := Some "Carol" ]} ["-overwrite_original"]
             :: [console_log
                   (chalk_red
                      "WARNING: Overwriting b.jpg existing creator: Bob with Carol");
                 write_called (Some "/home/u/pics/b.jpg")
                   {[ "XMP:Creator" := Some "Carol" ]} ["-overwrite_original"];
                 write_settled 0; write_settled 1;
                 console_error "Error: file is read-only"])%list) as Htrace.
  { vm_compute. reflexivity. }
  split; [exact Htrace|].
  exact (proj2 (proj2 (proj2 (reads_precede_writes _ _ _ _ _ _ _ _ _ Htrace)))).
Defined.

(** ** The order of the warnings *)

(** The files "pics/2" and "pics/1" are entered in this order, and warned
    about in the other. *)
Lemma warnings_not_in_insertion_order :
  ¬ warnings_in_insertion_order as_given sample_write ["pics/2"; "pics/1"] carol.
Proof.
  intros Hclaim.
  specialize (Hclaim
    [("2", {| fileName := "2"; fileType' := image; sourceFile := Some "pics/2";
              creator := Some "creator of pics/2"; license := None;
              rights := None |});
     ("1", {| fileName := "1"; fileType' := image; sourceFile := Some "pics/1";
              creator := Some "creator of pics/1"; license := None;
              rights := None |})] eq_refl).
  vm_compute in Hclaim. discriminate Hclaim.
Qed.

(** C10 (amended). When the read phase returns a mapping, the warnings
    returned are ordered by it: the entries whose key is an array index
    come first, by ascending index, then all the other entries in the
    order in which their keys were created; the warnings of one entry are
    in the order creator, license, rights. When no key is an array index
    the order is that of creation throughout. *)
Theorem writeImageTags_warnings_order readRaw write files newTags fileTags :
  returned (getTags readRaw files) = inr fileTags →
  ∃ index_keyed : list (N * (string * linkedFileType)),
    index_keyed ≡ₚ omap indexed fileTags
    ∧ StronglySorted (λ a b, (a.1 ≤ b.1)%N) index_keyed
    ∧ returned (writeImageTags readRaw write files newTags)
      = inr ('(baseName, currentTags) ←
               (index_keyed.*2
                ++ filter (λ entry, array_index entry.1 = None) fileTags)%list;
             (block_warnings baseName "creator" (creator currentTags)
                (own_creator newTags)
              ++ block_warnings baseName "license" (license currentTags)
                   (own_license newTags)
              ++ block_warnings baseName "rights" (rights currentTags)
                   (own_rights newTags))%list)
    ∧ ((∀ entry, entry ∈ fileTags → array_index entry.1 = None) →
       returned (writeImageTags readRaw write files newTags)
       = inr (fileTags ≫= entry_warnings newTags)).
Proof.
  intros Hr. exists (merge_sort index_le (omap indexed fileTags)). split_and!.
  - apply merge_sort_Permutation.
  - apply Object_entries_sorted.
  - rewrite (returned_run _ _ _ _ _ Hr). f_equal. unfold Object_entries.
    assert (filter (λ e : string * linkedFileType, named e = true) fileTags
            = filter (λ entry, array_index entry.1 = None) fileTags) as ->.
    { apply list_filter_iff. intros entry. unfold named.
      by destruct (array_index entry.1). }
    apply list_bind_ext; [|done]. intros [baseName currentTags].
    unfold entry_warnings, tracked_fields. cbn. by rewrite app_nil_r.
  - intros Hnamed. rewrite (returned_run _ _ _ _ _ Hr).
    rewrite Object_entries_named; [done|]. by apply Forall_forall.
Qed.

Lemma writeImageTags_warnings_order_witness :
  returned (getTags as_given ["pics/b"; "pics/2"; "pics/a"; "pics/1"])
  = inr numbered_fileTags
  ∧ ∃ index_keyed : list (N * (string * linkedFileType)),
      index_keyed ≡ₚ omap indexed numbered_fileTags
      ∧ StronglySorted (λ a b, (a.1 ≤ b.1)%N) index_keyed
      ∧ returned (writeImageTags as_given sample_write
                    ["pics/b"; "pics/2"; "pics/a"; "pics/1"] carol)
        = inr ('(baseName, currentTags) ←
                 (index_keyed.*2
                  ++ filter (λ entry, array_index entry.1 = None)
                       numbered_fileTags)%list;
               (block_warnings baseName "creator" (creator currentTags)
                  (own_creator carol)
                ++ block_warnings baseName "license" (license currentTags)
                     (own_license carol)
                ++ block_warnings baseName "rights" (rights currentTags)
                     (own_rights carol))%list)
      ∧ ((∀ entry, entry ∈ numbered_fileTags → array_index entry.1 = None) →
         returned (writeImageTags as_given sample_write
                     ["pics/b"; "pics/2"; "pics/a"; "pics/1"] carol)
         = inr (numbered_fileTags ≫= entry_warnings carol)).
Proof.
  split; [reflexivity|].
  exact (writeImageTags_warnings_order as_given sample_write
           ["pics/b"; "pics/2"; "pics/a"; "pics/1"] carol numbered_fileTags
           eq_refl).
Defined.

Example numbered_warnings :
  returned (writeImageTags as_given sample_write
              ["pics/b"; "pics/2"; "pics/a"; "pics/1"] carol)
  = inr ["WARNING: Overwriting 1 existing creator: creator of pics/1 with Carol";
         "WARNING: Overwriting 2 existing creator: creator of pics/2 with Carol";
         "WARNING: Overwriting b existing creator: creator of pics/b with Carol";
         "WARNING: Overwriting a existing creator: creator of pics/a with Carol"].
Proof. vm_compute. reflexivity. Qed.

(** ** [Promise.all]: the first rejection *)

Global Instance settles_before_trans {A} : Transitive (@settles_before A).
Proof. intros x y z. unfold settles_before. lia. Qed.

Global Instance settles_before_total {A} : Total (@settles_before A).
Proof. intros x y. unfold settles_before. lia. Qed.

Section first_rejection.

Context {A : Type}.
Implicit Types (q : list (nat * promise A)) (promises : list (promise A)).

Lemma observe_first settled q e :
  (observe settled q).2 = Some e →
  ∃ q1 i p q2,
    q = (q1 ++ (i, p) :: q2)%list ∧ outcome p = inl e
    ∧ Forall (λ ip, is_Some (fulfilled ip.2)) q1
    ∧ (observe settled q).1 = settled <$> (q1.*1 ++ [i])%list.
Proof.
  induction q as [|[j p'] q IH]; cbn; [done|].
  destruct (outcome p') as [e'|a] eqn:Hp; cbn.
  - intros [= ->]. exists [], j, p', q. by split_and!.
  - intros Hq. destruct (IH Hq) as (q1 & i & p & q2 & -> & Hout & Hall & Ht).
    exists ((j, p') :: q1), i, p, q2. split_and!; [done..| |].
    + constructor; [|done]. cbn. unfold fulfilled. rewrite Hp. by eexists.
    + cbn. by rewrite Ht.
Qed.

Lemma settle_order_sorted promises :
  StronglySorted settles_before (settle_order promises).
Proof. apply StronglySorted_merge_sort; apply _. Qed.

Lemma settle_order_indices promises :
  (settle_order promises).*1 ≡ₚ seq 0 (length promises).
Proof.
  rewrite settle_order_perm, fmap_imap.
  rewrite (imap_ext _ (λ j _, j)) by done.
  by rewrite (imap_seq_0 promises (λ j, j)), list_fmap_id.
Qed.

(** Waiting stops at the rejected promise that settles first: its reason
    is the reason of the rejection, its settlement is the last one seen,
    and the settlements seen before are those of fulfilled promises that
    settled earlier. *)
Lemma Promise_all_first settled promises e :
  returned (await_Promise_all settled promises) = inl e →
  ∃ i p earlier,
    promises !! i = Some p ∧ outcome p = inl e
    ∧ trace (await_Promise_all settled promises)
      = settled <$> (earlier ++ [i])%list
    ∧ (∀ j p', promises !! j = Some p' → is_rejected p' →
               settles_before (i, p) (j, p'))
    ∧ (∀ j, j ∈ earlier →
            ∃ p', promises !! j = Some p' ∧ is_Some (fulfilled p')
                  ∧ settles_before (j, p') (i, p)).
Proof.
  unfold await_Promise_all.
  destruct (observe settled (settle_order promises)) as [t [e'|]] eqn:Hobs;
    cbn; [|done]. intros [= ->].
  destruct (observe_first settled (settle_order promises) e)
    as (q1 & i & p & q2 & Hq & Hout & Hall & Ht); [by rewrite Hobs|].
  rewrite Hobs in Ht. cbn in Ht. subst t.
  pose proof (settle_order_sorted promises) as Hsorted. rewrite Hq in Hsorted.
  assert (∀ j p', (j, p') ∈ settle_order promises ↔ promises !! j = Some p')
    as Hin by (intros; apply elem_of_settle_order).
  exists i, p, q1.*1. split_and!; [|done|done| |].
  - apply Hin. rewrite Hq. apply elem_of_app. right. left.
  - intros j p' Hj [eq Heq]. apply Hin in Hj. rewrite Hq in Hj.
    apply elem_of_app in Hj as [Hj|Hj].
    + apply (proj1 (Forall_forall _ _) Hall) in Hj as [a Ha].
      unfold fulfilled in Ha. cbn in Ha. by rewrite Heq in Ha.
    + apply elem_of_cons in Hj as [[= -> ->]|Hj].
      * destruct (total settles_before (i, p) (i, p)); done.
      * apply StronglySorted_app_1_r in Hsorted.
        apply StronglySorted_inv in Hsorted as [_ Hle].
        by apply (proj1 (Forall_forall _ _) Hle).
  - intros j ([j' p'] & -> & Hj)%list_elem_of_fmap. exists p'. split_and!.
    + apply Hin. rewrite Hq. apply elem_of_app. by left.
    + by apply (proj1 (Forall_forall _ _) Hall) in Hj.
    + eapply StronglySorted_app_1_elem_of; [done..|left].
Qed.

End first_rejection.

Lemma Promise_all_seen {A} settled (promises : list (promise A)) :
  ∃ n, trace (await_Promise_all settled promises)
       = settled <$> take n (settle_order promises).*1.
Proof.
  assert (∀ q : list (nat * promise A),
            ∃ n, (observe settled q).1 = settled <$> take n q.*1) as Hobs.
  { induction q as [|[i p] q [n IH]]; [by exists 0%nat|]. cbn.
    destruct (outcome p); cbn; [by exists 1%nat|].
    exists (S n). cbn. by rewrite IH. }
  destruct (Hobs (settle_order promises)) as [n Hn]. exists n.
  unfold await_Promise_all.
  by destruct (observe settled (settle_order promises)) as [t [e|]].
Qed.

(** ** More on the read phase *)

Global Instance read_settled_inj : Inj (=) (=) read_settled.
Proof. by intros i j [= ->]. Qed.

Global Instance write_settled_inj : Inj (=) (=) write_settled.
Proof. by intros i j [= ->]. Qed.

(** X1. Whatever the reads do, [getTags] first asks the tool for every file
    of [files], in the order of [files] (a path listed twice is asked for
    twice), each time with the options [all] and [-xmp:all], and only then
    sees reads settle: each read at most once, and all of them when a
    mapping is returned. *)
Theorem getTags_asks_then_waits readRaw files :
  ∃ settled : list nat,
    trace (getTags readRaw files)
    = (((λ file, readRaw_called file ["all"; "-xmp:all"]) <$> files)
       ++ (read_settled <$> settled))%list
    ∧ NoDup settled
    ∧ (∀ i, i ∈ settled → (i < length files)%nat)
    ∧ ∀ fileTags,
        returned (getTags readRaw files) = inr fileTags →
        settled ≡ₚ seq 0 (length files).
Proof.
  destruct (Promise_all_seen read_settled (read_promises readRaw files))
    as [n Hn].
  pose proof (settle_order_indices (read_promises readRaw files)) as Hperm.
  assert (length (read_promises readRaw files) = length files) as Hlen
    by (unfold read_promises; apply length_fmap).
  rewrite Hlen in Hperm.
  exists (take n (settle_order (read_promises readRaw files)).*1).
  split_and!.
  - rewrite getTags_run. cbn [trace]. by rewrite Hn.
  - apply (sublist_NoDup _ (settle_order (read_promises readRaw files)).*1);
      [|apply sublist_take].
    rewrite Hperm. apply NoDup_seq.
  - intros i (k & Hk%list_elem_of_lookup_2 & _)%elem_of_take.
    rewrite Hperm in Hk. apply elem_of_seq in Hk. lia.
  - intros fileTags Hr. rewrite getTags_run in Hr. cbn in Hr.
    destruct (returned (await_Promise_all read_settled
                          (read_promises readRaw files)))
      as [e|allTags] eqn:Hawait; [done|].
    apply Promise_all_fulfilled in Hawait as (_ & Ht & _).
    rewrite Ht in Hn. apply (inj (fmap read_settled)) in Hn.
    by rewrite <- Hn.
Qed.

(** X2. When [getTags] is rejected, it is with the reason of the rejected
    read that settled first (the earlier instant; of two reads at the same
    instant, the one asked for first): that settlement is the last event
    of the run, and the reads seen to settle before it were fulfilled. *)
Theorem getTags_first_rejection readRaw files e :
  returned (getTags readRaw files) = inl e →
  ∃ i file earlier,
    files !! i = Some file
    ∧ outcome (readRaw file ["all"; "-xmp:all"]) = inl e
    ∧ trace (getTags readRaw files)
      = (((λ file, readRaw_called file ["all"; "-xmp:all"]) <$> files)
         ++ (read_settled <$> earlier) ++ [read_settled i])%list
    ∧ (∀ j file',
         files !! j = Some file' →
         is_rejected (readRaw file' ["all"; "-xmp:all"]) →
         (settles_at (readRaw file ["all"; "-xmp:all"])
          < settles_at (readRaw file' ["all"; "-xmp:all"]))%nat
         ∨ (settles_at (readRaw file ["all"; "-xmp:all"])
            = settles_at (readRaw file' ["all"; "-xmp:all"]) ∧ (i ≤ j)%nat))
    ∧ ∀ j, j ∈ earlier →
           ∃ file', files !! j = Some file'
                    ∧ is_Some (fulfilled (readRaw file' ["all"; "-xmp:all"])).
Proof.
  intros Hr. rewrite getTags_run in Hr. cbn in Hr.
  destruct (returned (await_Promise_all read_settled
                        (read_promises readRaw files)))
    as [e'|allTags] eqn:Hawait; [|done]. injection Hr as ->.
  destruct (Promise_all_first _ _ _ Hawait)
    as (i & p & earlier & Hi & Hout & Ht & Hfirst & Hearlier).
  assert (∀ j p', read_promises readRaw files !! j = Some p' ↔
                  ∃ file', files !! j = Some file'
                           ∧ p' = readRaw file' ["all"; "-xmp:all"]) as Hlook.
  { intros j p'. unfold read_promises. rewrite list_lookup_fmap.
    destruct (files !! j) as [file0|]; cbn; split.
    - intros [= <-]. by exists file0.
    - by intros (file' & [= <-] & ->).
    - done.
    - by intros (file' & ? & _). }
  apply Hlook in Hi as (file & Hfile & ->).
  exists i, file, earlier. split_and!; [done..| | |].
  - rewrite getTags_run. cbn [trace]. by rewrite Ht, fmap_app.
  - intros j file' Hj Hrej.
    apply (Hfirst j (readRaw file' ["all"; "-xmp:all"])); [|done].
    apply Hlook. by exists file'.
  - intros j Hj. destruct (Hearlier j Hj) as (p' & Hp' & Hful & _).
    apply Hlook in Hp' as (file' & Hfile' & ->). by exists file'.
Qed.

Lemma getTags_first_rejection_witness :
  returned (getTags racing_readRaw ["pics/slow.jpg"; "pics/c.jpg"; "pics/fast.jpg"])
  = inl {| message := "fast.jpg: unreadable" |}
  ∧ ∃ i file earlier,
      ["pics/slow.jpg"; "pics/c.jpg"; "pics/fast.jpg"] !! i = Some file
      ∧ outcome (racing_readRaw file ["all"; "-xmp:all"])
        = inl {| message := "fast.jpg: unreadable" |}
      ∧ trace (getTags racing_readRaw
                 ["pics/slow.jpg"; "pics/c.jpg"; "pics/fast.jpg"])
        = (((λ file, readRaw_called file ["all"; "-xmp:all"])
              <$> ["pics/slow.jpg"; "pics/c.jpg"; "pics/fast.jpg"])
           ++ (read_settled <$> earlier) ++ [read_settled i])%list
      ∧ (∀ j file',
           ["pics/slow.jpg"; "pics/c.jpg"; "pics/fast.jpg"] !! j = Some file' →
           is_rejected (racing_readRaw file' ["all"; "-xmp:all"]) →
           (settles_at (racing_readRaw file ["all"; "-xmp:all"])
            < settles_at (racing_readRaw file' ["all"; "-xmp:all"]))%nat
           ∨ (settles_at (racing_readRaw file ["all"; "-xmp:all"])
              = settles_at (racing_readRaw file' ["all"; "-xmp:all"])
              ∧ (i ≤ j)%nat))
      ∧ ∀ j, j ∈ earlier →
             ∃ file',
               ["pics/slow.jpg"; "pics/c.jpg"; "pics/fast.jpg"] !! j = Some file'
               ∧ is_Some (fulfilled (racing_readRaw file' ["all"; "-xmp:all"])).
Proof.
  assert (returned (getTags racing_readRaw
                      ["pics/slow.jpg"; "pics/c.jpg"; "pics/fast.jpg"])
          = inl {| message := "fast.jpg: unreadable" |}) as Hr
    by (vm_compute; reflexivity).
  split; [exact Hr|].
  exact (getTags_first_rejection racing_readRaw
           ["pics/slow.jpg"; "pics/c.jpg"; "pics/fast.jpg"] _ Hr).
Defined.

Lemma getTags_returns readRaw files allTags :
  Forall2 (λ file tags, outcome (readRaw file ["all"; "-xmp:all"]) = inr tags)
    files allTags →
  returned (getTags readRaw files) = inr (foldl add_linkedFile obj_empty allTags).
Proof.
  intros Hall.
  destruct (returned (getTags readRaw files)) as [e|fileTags] eqn:Hr.
  - exfalso. rewrite getTags_run in Hr. cbn in Hr.
    destruct (returned (await_Promise_all read_settled
                          (read_promises readRaw files)))
      as [e'|allTags'] eqn:Hawait; [|done].
    destruct (Promise_all_first _ _ _ Hawait) as (i & p & _ & Hi & Hout & _).
    unfold read_promises in Hi. rewrite list_lookup_fmap in Hi.
    destruct (files !! i) as [file|] eqn:Hfile; [|done].
    cbn in Hi. injection Hi as <-.
    destruct (Forall2_lookup_l _ _ _ _ _ Hall Hfile) as (tags & _ & Htags).
    congruence.
  - apply getTags_fulfilled in Hr as (allTags' & Hall' & -> & _).
    do 2 f_equal. clear -Hall Hall'. revert allTags' Hall'.
    induction Hall as [|file tags files allTags Hout _ IH];
      intros allTags' Hall'; inv Hall'; [done|].
    f_equal; [congruence | by apply IH].
Qed.

Lemma own_keys_obj_set {V} k v (o : JsObject V) :
  own_keys (obj_set k v o)
  = if decide (k = "__proto__") then own_keys o
    else if decide (k ∈ own_keys o) then own_keys o
         else (own_keys o ++ [k])%list.
Proof.
  unfold obj_set. case_decide; [done|]. apply own_keys_define_own.
Qed.

Lemma own_keys_linkedFiles allTags linkedFiles :
  own_keys (foldl add_linkedFile linkedFiles allTags)
  = (own_keys linkedFiles
     ++ fresh_keys (own_keys linkedFiles) (entered allTags))%list.
Proof.
  revert linkedFiles. unfold entered.
  induction allTags as [|tags allTags IH]; intros linkedFiles.
  - cbn. by rewrite app_nil_r.
  - cbn [foldl fmap list_fmap]. rewrite IH, add_linkedFile_obj_set.
    rewrite own_keys_obj_set, filter_cons.
    destruct (decide (basename (SourceFile tags) = "__proto__")) as [Heq|Hne].
    + destruct (decide (basename (SourceFile tags) ≠ "__proto__")) as [Hd|_];
        [exfalso; apply Hd; exact Heq | reflexivity].
    + destruct (decide (basename (SourceFile tags) ≠ "__proto__")) as [_|Hd];
        [|exfalso; apply Hd; exact Hne]. cbn [fresh_keys].
      destruct (decide (basename (SourceFile tags) ∈ own_keys linkedFiles));
        [done|]. by rewrite <- app_assoc.
Qed.

Lemma length_fresh_keys seen ks : (length (fresh_keys seen ks) ≤ length ks)%nat.
Proof.
  revert seen. induction ks as [|k ks IH]; intros seen; cbn; [done|].
  case_decide; cbn; [specialize (IH seen) | specialize (IH (seen ++ [k])%list)];
    lia.
Qed.

Lemma getTags_mapping_witness :
  Forall2 (λ file tags,
             outcome (sample_readRaw file ["all"; "-xmp:all"]) = inr tags)
    ["pics/a.jpg"; "pics/b.jpg"; "pics/a.jpg"]
    [ {| SourceFile := "/home/u/pics/a.jpg"; Creator := Some "Alice";
         License := None; Rights := Some "All rights reserved" |};
      {| SourceFile := "/home/u/pics/b.jpg"; Creator := Some "Bob";
         License := Some "CC BY"; Rights := None |};
      {| SourceFile := "/home/u/pics/a.jpg"; Creator := Some "Alice";
         License := None; Rights := Some "All rights reserved" |} ]
  ∧ ∃ fileTags,
      returned (getTags sample_readRaw ["pics/a.jpg"; "pics/b.jpg"; "pics/a.jpg"])
      = inr fileTags
      ∧ NoDup (own_keys fileTags)
      ∧ (∀ id, id ≠ "__proto__" →
           obj_get fileTags id
           = as_linkedFile
               <$> last (filter (λ tags, basename (SourceFile tags) = id)
                  [ {| SourceFile := "/home/u/pics/a.jpg"; Creator := Some "Alice";
                       License := None; Rights := Some "All rights reserved" |};
                    {| SourceFile := "/home/u/pics/b.jpg"; Creator := Some "Bob";
                       License := Some "CC BY"; Rights := None |};
                    {| SourceFile := "/home/u/pics/a.jpg"; Creator := Some "Alice";
                       License := None; Rights := Some "All rights reserved" |} ]))
      ∧ obj_get fileTags "__proto__" = None.
Proof.
  assert (Forall2 (λ file tags,
             outcome (sample_readRaw file ["all"; "-xmp:all"]) = inr tags)
    ["pics/a.jpg"; "pics/b.jpg"; "pics/a.jpg"]
    [ {| SourceFile := "/home/u/pics/a.jpg"; Creator := Some "Alice";
         License := None; Rights := Some "All rights reserved" |};
      {| SourceFile := "/home/u/pics/b.jpg"; Creator := Some "Bob";
         License := Some "CC BY"; Rights := None |};
      {| SourceFile := "/home/u/pics/a.jpg"; Creator := Some "Alice";
         License := None; Rights := Some "All rights reserved" |} ]) as Hall
    by (repeat constructor).
  split; [exact Hall|].
  exact (getTags_mapping sample_readRaw _ _ Hall).
Defined.

(** X5. The mapping [getTags] returns, the warnings [writeImageTags]
    returns and the write requests it issues depend on what the reads
    give, not on when the reads or the writes settle nor on what the
    writes give: they are the same for any tool whose reads have the same
    outcomes. *)
Theorem results_independent_of_timing
    readRaw readRaw' write write' files newTags fileTags :
  returned (getTags readRaw files) = inr fileTags →
  (∀ file, file ∈ files →
     outcome (readRaw' file ["all"; "-xmp:all"])
     = outcome (readRaw file ["all"; "-xmp:all"])) →
  returned (getTags readRaw' files) = inr fileTags
  ∧ returned (writeImageTags readRaw' write' files newTags)
    = returned (writeImageTags readRaw write files newTags)
  ∧ write_requests (trace (writeImageTags readRaw' write' files newTags))
    = write_requests (trace (writeImageTags readRaw write files newTags)).
Proof.
  intros Hr Hsame.
  assert (returned (getTags readRaw' files) = inr fileTags) as Hr'.
  { apply getTags_fulfilled in Hr as (allTags & Hall & -> & _).
    apply getTags_returns.
    apply Forall2_same_length_lookup. split; [by eapply Forall2_length|].
    intros i file tags Hfile Htags.
    rewrite Hsame by (by eapply list_elem_of_lookup_2).
    by apply (Forall2_lookup_lr _ _ _ i file tags Hall). }
  split; [done|].
  by rewrite !(returned_run _ _ _ _ _ Hr), !(returned_run _ _ _ _ _ Hr'),
    !(write_requests_run _ _ _ _ _ Hr), !(write_requests_run _ _ _ _ _ Hr').
Qed.

Lemma results_independent_of_timing_witness :
  returned (getTags sample_readRaw ["pics/a.jpg"; "pics/b.jpg"]) = inr sample_fileTags
  ∧ returned (getTags (at_instant String.length sample_readRaw)
                ["pics/a.jpg"; "pics/b.jpg"]) = inr sample_fileTags
  ∧ returned (writeImageTags (at_instant String.length sample_readRaw)
                obliging_write
                ["pics/a.jpg"; "pics/b.jpg"] carol)
    = returned (writeImageTags sample_readRaw sample_write
                  ["pics/a.jpg"; "pics/b.jpg"] carol)
  ∧ write_requests
      (trace (writeImageTags (at_instant String.length sample_readRaw)
                obliging_write
                ["pics/a.jpg"; "pics/b.jpg"] carol))
    = write_requests
        (trace (writeImageTags sample_readRaw sample_write
                  ["pics/a.jpg"; "pics/b.jpg"] carol)).
Proof.
  split; [exact sample_getTags|].
  apply (results_independent_of_timing sample_readRaw
           (at_instant String.length sample_readRaw) sample_write
           obliging_write
           ["pics/a.jpg"; "pics/b.jpg"] carol sample_fileTags sample_getTags).
  intros file _. reflexivity.
Defined.

Lemma basename_no_slash p : "/"%char ∉ list_ascii_of_string (basename p).
Proof.
  unfold basename. rewrite list_ascii_of_string_of_list_ascii.
  intros Hin%list_elem_of_In. apply in_rev in Hin.
  apply list_elem_of_In in Hin.
  pose proof (until_slash_no_slash
                (skip_slashes (rev (list_ascii_of_string p)))) as Hall.
  pose proof (proj1 (Forall_forall _ _) Hall _ Hin) as Hslash.
  discriminate Hslash.
Qed.

(** X6. Every entry of the mapping [getTags] returns is made of the payload
    of one fulfilled read of the batch: its key is the base name of the
    path the tool reported, has no directory separator and is never
    ["__proto__"]; [fileName] is the key, [fileType] is [image],
    [sourceFile] is the reported path, never [undefined], and the three
    tags are those of the payload. *)
Theorem getTags_entries_wellformed readRaw files fileTags id currentTags :
  returned (getTags readRaw files) = inr fileTags →
  (id, currentTags) ∈ fileTags →
  fileName currentTags = id
  ∧ fileType' currentTags = image
  ∧ id ≠ "__proto__"
  ∧ ("/"%char ∉ list_ascii_of_string id)
  ∧ ∃ file tags,
      file ∈ files
      ∧ outcome (readRaw file ["all"; "-xmp:all"]) = inr tags
      ∧ basename (SourceFile tags) = id
      ∧ sourceFile currentTags = Some (SourceFile tags)
      ∧ creator currentTags = Creator tags
      ∧ license currentTags = License tags
      ∧ rights currentTags = Rights tags.
Proof.
  intros Hr Hin.
  assert (id ≠ "__proto__") as Hproto.
  { intros ->. apply getTags_fulfilled in Hr as (allTags & _ & -> & _).
    pose proof (obj_get_linkedFiles_proto allTags) as Hnone.
    apply obj_get_None in Hnone. apply Hnone. unfold own_keys.
    apply list_elem_of_fmap. by exists ("__proto__", currentTags). }
  destruct (getTags_entry _ _ _ _ _ Hr Hin) as (file & tags & Hfile & Hout & -> & ->).
  split_and!; [done..|apply basename_no_slash|].
  by exists file, tags.
Qed.

Lemma getTags_entries_wellformed_witness :
  returned (getTags sample_readRaw ["pics/a.jpg"]) = inr sample_a
  ∧ ("/"%char ∉ list_ascii_of_string "a.jpg")
  ∧ ∃ file tags,
      file ∈ ["pics/a.jpg"]
      ∧ outcome (sample_readRaw file ["all"; "-xmp:all"]) = inr tags
      ∧ basename (SourceFile tags) = "a.jpg"
      ∧ Some "/home/u/pics/a.jpg" = Some (SourceFile tags)
      ∧ Some "Alice" = Creator tags
      ∧ None = License tags
      ∧ Some "All rights reserved" = Rights tags.
Proof.
  split; [exact sample_getTags_a|].
  destruct (getTags_entries_wellformed sample_readRaw ["pics/a.jpg"] sample_a
              "a.jpg" {| fileName := "a.jpg"; fileType' := image;
                         sourceFile := Some "/home/u/pics/a.jpg";
                         creator := Some "Alice"; license := None;
                         rights := Some "All rights reserved" |}
              sample_getTags_a) as (_ & _ & _ & Hslash & Hfrom).
  - left.
  - split; [exact Hslash | exact Hfrom].
Defined.

(** ** More on the console and the write phase *)

Lemma omap_none {A B} (f : A → option B) (l : list A) :
  (∀ x, x ∈ l → f x = None) → omap f l = [].
Proof.
  induction l as [|x l IH]; intros Hl; [done|]. cbn.
  rewrite (Hl x) by left. apply IH. intros y Hy. apply Hl. by right.
Qed.

Lemma console_of_reads t :
  (∀ ev, ev ∈ t → is_read ev = true) →
  console_logs t = [] ∧ console_errors t = [].
Proof.
  intros Ht. split; apply omap_none; intros ev Hev%Ht; by destruct ev.
Qed.

Lemma console_of_file_events newTags currentTags :
  console_logs (file_events newTags currentTags)
  = chalk_red <$> file_warnings newTags currentTags
  ∧ console_errors (file_events newTags currentTags) = [].
Proof.
  unfold console_logs, console_errors, file_events. rewrite !omap_app.
  assert (∀ ws : list string,
            omap (λ ev, match ev with console_log line => Some line | _ => None end)
              ((console_log ∘ chalk_red) <$> ws) = chalk_red <$> ws
            ∧ omap (λ ev, match ev with console_error line => Some line
                                   | _ => None end)
                ((console_log ∘ chalk_red) <$> ws) = []) as Hws.
  { induction ws as [|w ws [IH1 IH2]]; [done|]. cbn. by rewrite IH1, IH2. }
  destruct (Hws (file_warnings newTags currentTags)) as [-> ->].
  unfold file_writes. case_bool_decide; cbn; by rewrite ?app_nil_r.
Qed.

Lemma console_app t1 t2 :
  console_logs (t1 ++ t2) = (console_logs t1 ++ console_logs t2)%list
  ∧ console_errors (t1 ++ t2) = (console_errors t1 ++ console_errors t2)%list.
Proof. unfold console_logs, console_errors. by rewrite !omap_app. Qed.

Lemma console_of_loop_events newTags fileTags :
  console_logs (loop_events newTags fileTags)
  = chalk_red <$> (Object_entries fileTags ≫= λ entry, file_warnings newTags entry.2)
  ∧ console_errors (loop_events newTags fileTags) = [].
Proof.
  unfold loop_events.
  induction (Object_entries fileTags) as [|entry entries [IH1 IH2]]; [done|].
  rewrite !bind_cons.
  destruct (console_app (file_events newTags entry.2)
              (entries ≫= λ entry, file_events newTags entry.2)) as [-> ->].
  rewrite IH1, IH2, fmap_app.
  by destruct (console_of_file_events newTags entry.2) as [-> ->].
Qed.

Lemma console_of_write_phase promises :
  console_logs (write_phase promises) = []
  ∧ console_errors (write_phase promises)
    = match returned (await_Promise_all write_settled promises) with
      | inl e => [message e]
      | inr _ => []
      end.
Proof.
  unfold write_phase, console_logs, console_errors. rewrite !omap_app.
  assert (∀ f : event → option string,
            (∀ i, f (write_settled i) = None) →
            omap f (trace (await_Promise_all write_settled promises)) = [])
    as Hsettled.
  { intros f Hf. apply omap_none. intros ev (i & _ & ->)%Promise_all_trace.
    apply Hf. }
  rewrite !Hsettled by done.
  by destruct (returned (await_Promise_all write_settled promises)).
Qed.

(** X7. Every warning [writeImageTags] returns has been written with
    [console.log], in red, and nothing else has: the lines logged are the
    warnings returned, in the same order. A run that is rejected has
    logged nothing. *)
Theorem warnings_are_logged readRaw write files newTags :
  console_logs (trace (writeImageTags readRaw write files newTags))
  = match returned (writeImageTags readRaw write files newTags) with
    | inr warnings => chalk_red <$> warnings
    | inl _ => []
    end.
Proof.
  destruct (returned (getTags readRaw files)) as [e|fileTags] eqn:Hr.
  - rewrite (writeImageTags_rejected _ _ _ _ _ Hr). cbn [trace returned].
    apply console_of_reads, getTags_only_reads.
  - rewrite (writeImageTags_run _ _ _ _ _ Hr). cbn [trace returned].
    unfold console_logs. rewrite !omap_app.
    fold (console_logs (trace (getTags readRaw files))).
    fold (console_logs (loop_events newTags fileTags)).
    fold (console_logs (write_phase (loop_promises write newTags fileTags))).
    destruct (console_of_reads (trace (getTags readRaw files))) as [-> _];
      [apply getTags_only_reads|].
    destruct (console_of_loop_events newTags fileTags) as [-> _].
    destruct (console_of_write_phase (loop_promises write newTags fileTags))
      as [-> _].
    by rewrite app_nil_r.
Qed.

Lemma console_errors_run readRaw write files newTags fileTags :
  returned (getTags readRaw files) = inr fileTags →
  console_errors (trace (writeImageTags readRaw write files newTags))
  = match returned (await_Promise_all write_settled
                      (loop_promises write newTags fileTags)) with
    | inl e => [message e]
    | inr _ => []
    end.
Proof.
  intros Hr. rewrite (writeImageTags_run _ _ _ _ _ Hr). cbn [trace].
  unfold console_errors. rewrite !omap_app.
  fold (console_errors (trace (getTags readRaw files))).
  fold (console_errors (loop_events newTags fileTags)).
  fold (console_errors (write_phase (loop_promises write newTags fileTags))).
  destruct (console_of_reads (trace (getTags readRaw files))) as [_ ->];
    [apply getTags_only_reads|].
  destruct (console_of_loop_events newTags fileTags) as [_ ->].
  by destruct (console_of_write_phase (loop_promises write newTags fileTags))
    as [_ ->].
Qed.

(** X8. However many writes fail, [writeImageTags] writes at most one line
    with [console.error]. *)
Theorem at_most_one_error_logged readRaw write files newTags :
  (length (console_errors (trace (writeImageTags readRaw write files newTags)))
   ≤ 1)%nat.
Proof.
  destruct (returned (getTags readRaw files)) as [e|fileTags] eqn:Hr.
  - rewrite (writeImageTags_rejected _ _ _ _ _ Hr). cbn [trace].
    destruct (console_of_reads (trace (getTags readRaw files))) as [_ ->];
      [apply getTags_only_reads|]. cbn. lia.
  - rewrite (console_errors_run _ _ _ _ _ Hr).
    destruct (returned (await_Promise_all write_settled
                          (loop_promises write newTags fileTags))); cbn; lia.
Qed.

(** The promises waited for and the requests issued go by pairs. *)
Lemma loop_promises_lookup readRaw write files newTags fileTags j p :
  returned (getTags readRaw files) = inr fileTags →
  loop_promises write newTags fileTags !! j = Some p ↔
  ∃ src tags args,
    write_requests (trace (writeImageTags readRaw write files newTags)) !! j
    = Some (write_called src tags args)
    ∧ p = write src tags args.
Proof.
  intros Hr. rewrite (write_requests_run _ _ _ _ _ Hr).
  unfold loop_promises, file_promises, file_writes.
  destruct (bool_decide (size (staged newTags) ≠ 0)).
  - induction (Object_entries fileTags) as [|entry entries IH] in j |- *.
    + cbn. split; [done|]. by intros (? & ? & ? & ? & _).
    + rewrite !bind_cons. destruct j as [|j]; cbn.
      * split; [intros [= <-]; by eexists _, _, _|].
        by intros (src & tags & args & [= <- <- <-] & ->).
      * apply IH.
  - assert (∀ {B} (entries : list (string * linkedFileType)),
              entries ≫= (λ _, @nil B) = []) as Hnil
      by (intros B entries; induction entries; [done|by rewrite bind_cons]).
    rewrite !Hnil. split; [done|]. by intros (? & ? & ? & ? & _).
Qed.

Lemma length_loop_promises readRaw write files newTags fileTags :
  returned (getTags readRaw files) = inr fileTags →
  length (loop_promises write newTags fileTags)
  = length (write_requests (trace (writeImageTags readRaw write files newTags))).
Proof.
  intros Hr. rewrite (write_requests_run _ _ _ _ _ Hr).
  unfold loop_promises, file_promises, file_writes.
  destruct (bool_decide (size (staged newTags) ≠ 0));
    induction (Object_entries fileTags) as [|entry entries IH]; try done;
    rewrite !bind_cons, !length_app, IH; done.
Qed.

(** X9. When the read phase returns a mapping and every write request
    issued is fulfilled, nothing is written with [console.error] and
    [writeImageTags] returns only after every request has settled. *)
Theorem writes_awaited_when_all_succeed readRaw write files newTags fileTags :
  returned (getTags readRaw files) = inr fileTags →
  (∀ src tags args,
     write_called src tags args
       ∈ trace (writeImageTags readRaw write files newTags) →
     outcome (write src tags args) = inr ()) →
  console_errors (trace (writeImageTags readRaw write files newTags)) = []
  ∧ ∀ i,
      (i < length (write_requests
                     (trace (writeImageTags readRaw write files newTags))))%nat →
      write_settled i ∈ trace (writeImageTags readRaw write files newTags).
Proof.
  intros Hr Hok.
  destruct (returned (await_Promise_all write_settled
                        (loop_promises write newTags fileTags)))
    as [e|values] eqn:Hawait.
  - exfalso. destruct (Promise_all_first _ _ _ Hawait)
      as (i & p & _ & Hi & Hout & _).
    apply (loop_promises_lookup readRaw write files) in Hi
      as (src & tags & args & Hreq & ->); [|done].
    apply list_elem_of_lookup_2, list_elem_of_filter in Hreq as [_ Hreq].
    rewrite (Hok _ _ _ Hreq) in Hout. done.
  - split.
    + by rewrite (console_errors_run _ _ _ _ _ Hr), Hawait.
    + intros i Hi.
      rewrite <- (length_loop_promises readRaw write files newTags fileTags Hr)
        in Hi.
      apply Promise_all_fulfilled in Hawait as (_ & _ & Hsettled).
      rewrite (writeImageTags_run _ _ _ _ _ Hr). cbn [trace].
      apply elem_of_app. right. apply elem_of_app. right.
      unfold write_phase. apply elem_of_app. left. by apply Hsettled.
Qed.

Lemma writes_awaited_when_all_succeed_witness :
  returned (getTags sample_readRaw ["pics/a.jpg"; "pics/b.jpg"]) = inr sample_fileTags
  ∧ console_errors (trace (writeImageTags sample_readRaw obliging_write
                             ["pics/a.jpg"; "pics/b.jpg"] carol)) = []
  ∧ ∀ i,
      (i < length (write_requests
                     (trace (writeImageTags sample_readRaw obliging_write
                               ["pics/a.jpg"; "pics/b.jpg"] carol))))%nat →
      write_settled i ∈ trace (writeImageTags sample_readRaw obliging_write
                                 ["pics/a.jpg"; "pics/b.jpg"] carol).
Proof.
  split; [exact sample_getTags|].
  apply (writes_awaited_when_all_succeed sample_readRaw obliging_write
           ["pics/a.jpg"; "pics/b.jpg"] carol sample_fileTags sample_getTags).
  intros src tags args _. reflexivity.
Defined.

(** X10. When the read phase returns a mapping and a line is written with
    [console.error], the line is the message of the rejected write that
    settled first (the earlier instant; of two writes at the same instant,
    the one requested first), and it is the last event of the run. *)
Theorem first_write_rejection_logged readRaw write files newTags fileTags line :
  returned (getTags readRaw files) = inr fileTags →
  line ∈ console_errors (trace (writeImageTags readRaw write files newTags)) →
  ∃ i src tags args e,
    write_requests (trace (writeImageTags readRaw write files newTags)) !! i
    = Some (write_called src tags args)
    ∧ outcome (write src tags args) = inl e
    ∧ line = message e
    ∧ last (trace (writeImageTags readRaw write files newTags))
      = Some (console_error line)
    ∧ ∀ j src' tags' args',
        write_requests (trace (writeImageTags readRaw write files newTags)) !! j
        = Some (write_called src' tags' args') →
        is_rejected (write src' tags' args') →
        (settles_at (write src tags args)
         < settles_at (write src' tags' args'))%nat
        ∨ (settles_at (write src tags args) = settles_at (write src' tags' args')
           ∧ (i ≤ j)%nat).
Proof.
  intros Hr Hline. rewrite (console_errors_run _ _ _ _ _ Hr) in Hline.
  destruct (returned (await_Promise_all write_settled
                        (loop_promises write newTags fileTags)))
    as [e|values] eqn:Hawait; [|by apply elem_of_nil in Hline].
  apply list_elem_of_singleton in Hline as ->.
  destruct (Promise_all_first _ _ _ Hawait)
    as (i & p & _ & Hi & Hout & _ & Hfirst & _).
  apply (loop_promises_lookup readRaw write files) in Hi
    as (src & tags & args & Hreq & ->); [|done].
  exists i, src, tags, args, e. split_and!; [done..| |].
  - rewrite (writeImageTags_run _ _ _ _ _ Hr). cbn [trace].
    rewrite app_assoc. unfold write_phase. rewrite Hawait, app_assoc.
    apply last_snoc.
  - intros j src' tags' args' Hj Hrej.
    apply (Hfirst j (write src' tags' args')); [|done].
    apply (loop_promises_lookup readRaw write files); [done|].
    by exists src', tags', args'.
Qed.

Lemma first_write_rejection_logged_witness :
  returned (getTags sample_readRaw ["pics/a.jpg"; "pics/b.jpg"]) = inr sample_fileTags
  ∧ "b.jpg: read-only"
    ∈ console_errors (trace (writeImageTags sample_readRaw racing_write
                               ["pics/a.jpg"; "pics/b.jpg"] carol))
  ∧ ∃ i src tags args e,
      write_requests (trace (writeImageTags sample_readRaw racing_write
                               ["pics/a.jpg"; "pics/b.jpg"] carol)) !! i
      = Some (write_called src tags args)
      ∧ outcome (racing_write src tags args) = inl e
      ∧ "b.jpg: read-only" = message e
      ∧ last (trace (writeImageTags sample_readRaw racing_write
                       ["pics/a.jpg"; "pics/b.jpg"] carol))
        = Some (console_error "b.jpg: read-only")
      ∧ ∀ j src' tags' args',
          write_requests (trace (writeImageTags sample_readRaw racing_write
                                   ["pics/a.jpg"; "pics/b.jpg"] carol)) !! j
          = Some (write_called src' tags' args') →
          is_rejected (racing_write src' tags' args') →
          (settles_at (racing_write src tags args)
           < settles_at (racing_write src' tags' args'))%nat
          ∨ (settles_at (racing_write src tags args)
             = settles_at (racing_write src' tags' args')
             ∧ (i ≤ j)%nat).
Proof.
  assert ("b.jpg: read-only"
          ∈ console_errors (trace (writeImageTags sample_readRaw racing_write
                                     ["pics/a.jpg"; "pics/b.jpg"] carol)))
    as Hline by (vm_compute; left).
  split; [exact sample_getTags|]. split; [exact Hline|].
  exact (first_write_rejection_logged sample_readRaw racing_write
           ["pics/a.jpg"; "pics/b.jpg"] carol sample_fileTags _
           sample_getTags Hline).
Defined.

Lemma size_stage tag own (tagToWrite : xmpTagType) :
  (size (stage tag own tagToWrite) ≤ S (size tagToWrite))%nat.
Proof.
  destruct own as [v|]; cbn; [|lia]. rewrite map_size_insert.
  destruct (tagToWrite !! tag); cbn; lia.
Qed.

(** X11. A write request of [writeImageTags] is never anything but this:
    the flag "-overwrite_original" alone; a payload of one to three tags,
    none of them other than "XMP:Creator", "XMP:License", "XMP:Rights";
    and for target a path, never [undefined], that the tool reported for a
    file of the batch and whose base name is not ["__proto__"]. *)
Theorem write_request_shape readRaw write files newTags src tags args :
  write_called src tags args ∈ trace (writeImageTags readRaw write files newTags) →
  args = ["-overwrite_original"]
  ∧ (∀ k, is_Some (tags !! k) → k ∈ ["XMP:Creator"; "XMP:License"; "XMP:Rights"])
  ∧ (1 ≤ size tags ≤ 3)%nat
  ∧ ∃ file rawTags,
      file ∈ files
      ∧ outcome (readRaw file ["all"; "-xmp:all"]) = inr rawTags
      ∧ src = Some (SourceFile rawTags)
      ∧ basename (SourceFile rawTags) ≠ "__proto__".
Proof.
  intros Hin.
  destruct (returned (getTags readRaw files)) as [e|fileTags] eqn:Hr.
  { rewrite (writeImageTags_rejected _ _ _ _ _ Hr) in Hin. cbn [trace] in Hin.
    by apply getTags_only_reads in Hin. }
  destruct (write_called_inv _ _ _ _ _ _ _ _ Hr Hin)
    as (([id currentTags] & Hentry & ->) & -> & -> & Hsz).
  apply (proj1 (elem_of_Object_entries _ _)) in Hentry.
  split; [done|]. split; [|split].
  - intros k [v (f & -> & _)%staged_lookup_Some].
    destruct f; cbn; set_solver.
  - split; [lia|]. unfold staged.
    pose proof (size_stage "XMP:Rights" (own_rights newTags)
                  (stage "XMP:License" (own_license newTags)
                     (stage "XMP:Creator" (own_creator newTags) ∅))).
    pose proof (size_stage "XMP:License" (own_license newTags)
                  (stage "XMP:Creator" (own_creator newTags) ∅)).
    pose proof (size_stage "XMP:Creator" (own_creator newTags) ∅).
    rewrite map_size_empty in *. lia.
  - destruct (getTags_entry _ _ _ _ _ Hr Hentry)
      as (file & rawTags & Hfile & Hout & -> & ->).
    exists file, rawTags. split_and!; [done..|].
    intros Hproto. apply getTags_fulfilled in Hr as (allTags & _ & -> & _).
    pose proof (obj_get_linkedFiles_proto allTags) as Hnone.
    apply obj_get_None in Hnone. apply Hnone. unfold own_keys.
    apply list_elem_of_fmap. eexists. split; [|exact Hentry]. by rewrite Hproto.
Qed.

Lemma write_request_shape_witness :
  write_called (Some "/home/u/pics/a.jpg") (staged empty_values)
    ["-overwrite_original"]
  ∈ trace (writeImageTags sample_readRaw sample_write ["pics/a.jpg"] empty_values)
  ∧ (1 ≤ size (staged empty_values) ≤ 3)%nat
  ∧ ∃ file rawTags,
      file ∈ ["pics/a.jpg"]
      ∧ outcome (sample_readRaw file ["all"; "-xmp:all"]) = inr rawTags
      ∧ Some "/home/u/pics/a.jpg" = Some (SourceFile rawTags)
      ∧ basename (SourceFile rawTags) ≠ "__proto__".
Proof.
  assert (write_called (Some "/home/u/pics/a.jpg") (staged empty_values)
            ["-overwrite_original"]
          ∈ trace (writeImageTags sample_readRaw sample_write ["pics/a.jpg"]
                     empty_values)) as Hin by find_event.
  split; [exact Hin|].
  destruct (write_request_shape _ _ _ _ _ _ _ Hin) as (_ & _ & Hsize & Hfrom).
  split; [exact Hsize | exact Hfrom].
Defined.

(** X12. With no file at all, [getTags] returns the empty mapping and
    [writeImageTags] returns no warning, and neither does anything: no
    call to the tool, nothing on the console. *)
Theorem nothing_to_do readRaw write newTags :
  getTags readRaw [] = {| trace := []; returned := inr obj_empty |}
  ∧ writeImageTags readRaw write [] newTags
    = {| trace := []; returned := inr [] |}.
Proof.
  assert (getTags readRaw [] = {| trace := []; returned := inr obj_empty |}) as Hg
    by reflexivity.
  split; [done|].
  rewrite (writeImageTags_run readRaw write [] newTags obj_empty)
    by (by rewrite Hg).
  by rewrite Hg.
Qed.

(** ** The keys as [Object.entries] lists them *)

Lemma keys_of_named {V} (o : JsObject V) :
  (filter (λ e, named e = true) o).*1
  = filter (λ k, array_index k = None) (own_keys o).
Proof.
  unfold own_keys. induction o as [|[k v] o IH]; [done|].
  cbn [fmap list_fmap]. rewrite !filter_cons.
  assert (named (k, v) = true ↔ array_index k = None) as Hiff.
  { unfold named. cbn [fst]. by destruct (array_index k). }
  destruct (decide (named (k, v) = true)) as [Hn|Hn].
  - rewrite decide_True by (by apply Hiff). cbn [fmap list_fmap fst].
    by rewrite IH.
  - rewrite decide_False by (by rewrite <- Hiff). apply IH.
Qed.

Lemma keys_of_indexed {V} (o : JsObject V) :
  (omap indexed o).*2.*1
  = filter (λ k, is_Some (array_index k)) (own_keys o).
Proof.
  unfold own_keys. induction o as [|[k v] o IH]; [done|].
  cbn [fmap list_fmap omap list_omap]. rewrite filter_cons.
  unfold indexed at 1. cbn [fst].
  destruct (array_index k) as [n|] eqn:Hk.
  - rewrite decide_True by (by eexists). cbn. by rewrite IH.
  - rewrite decide_False by (by intros [? ?]). apply IH.
Qed.

Lemma indexed_key {V} (o : JsObject V) n e :
  (n, e) ∈ omap indexed o → array_index e.1 = Some n.
Proof.
  intros (e' & _ & He)%list_elem_of_omap. unfold indexed in He.
  destruct (array_index e'.1) as [m|] eqn:Hm; [|done].
  by injection He as <- <-.
Qed.

Lemma Object_entries_index_keys {V} (o : JsObject V) :
  StronglySorted index_before (merge_sort index_le (omap indexed o)).*2.*1
  ∧ (merge_sort index_le (omap indexed o)).*2.*1
    ≡ₚ filter (λ k, is_Some (array_index k)) (own_keys o).
Proof.
  split; [|by rewrite merge_sort_Permutation, keys_of_indexed].
  assert (∀ x, x ∈ merge_sort index_le (omap indexed o) →
               array_index x.2.1 = Some x.1) as Hkey.
  { intros [n e]. rewrite merge_sort_Permutation. apply indexed_key. }
  pose proof (Object_entries_sorted o) as Hsorted.
  induction Hsorted as [|x l _ IH Hall]; [constructor|].
  cbn [fmap list_fmap]. constructor.
  - apply IH. intros y Hy. apply Hkey. by right.
  - apply Forall_forall. intros k ([m e] & -> & (y & -> & Hy)%list_elem_of_fmap)%list_elem_of_fmap.
    unfold index_before. rewrite (Hkey x) by left.
    rewrite (Hkey y) by (by right).
    by apply (proj1 (Forall_forall _ _) Hall).
Qed.

(** X3. When [getTags] returns a mapping, its keys, as [Object.entries]
    and [Object.keys] list them, are the base names of the paths the tool
    reported, ["__proto__"] apart, each once: first those that are array
    indices, by ascending index, then all the others in the order in
    which they first occur in [files] (the order of the input, not the
    order in which the reads settled). There are at most as many entries
    as files. *)
Theorem getTags_keys_as_listed readRaw files fileTags :
  returned (getTags readRaw files) = inr fileTags →
  ∃ allTags index_keys,
    Forall2 (λ file tags, outcome (readRaw file ["all"; "-xmp:all"]) = inr tags)
      files allTags
    ∧ (Object_entries fileTags).*1
      = (index_keys
         ++ filter (λ id, array_index id = None)
              (fresh_keys [] (entered allTags)))%list
    ∧ index_keys
      ≡ₚ filter (λ id, is_Some (array_index id)) (fresh_keys [] (entered allTags))
    ∧ StronglySorted index_before index_keys
    ∧ NoDup (Object_entries fileTags).*1
    ∧ (length (Object_entries fileTags) ≤ length files)%nat.
Proof.
  intros (allTags & Hall & -> & _)%getTags_fulfilled.
  set (fileTags := foldl add_linkedFile obj_empty allTags).
  assert (own_keys fileTags = fresh_keys [] (entered allTags)) as Hkeys
    by (unfold fileTags; by rewrite own_keys_linkedFiles).
  destruct (Object_entries_index_keys fileTags) as [Hsorted Hperm].
  exists allTags, (merge_sort index_le (omap indexed fileTags)).*2.*1.
  split_and!; [done| |by rewrite <- Hkeys|done| |].
  - unfold Object_entries. by rewrite fmap_app, keys_of_named, Hkeys.
  - rewrite Object_entries_perm. apply NoDup_linkedFiles. constructor.
  - rewrite length_Object_entries, <- (length_fmap fst).
    fold (own_keys fileTags). rewrite Hkeys.
    etrans; [apply length_fresh_keys|]. unfold entered.
    etrans; [apply length_filter|].
    rewrite length_fmap. by rewrite (Forall2_length _ _ _ Hall).
Qed.

Lemma getTags_keys_as_listed_witness :
  returned (getTags as_given ["pics/b"; "pics/2"; "pics/a"; "pics/b"; "pics/1"])
  = inr numbered_fileTags
  ∧ ∃ allTags index_keys,
      Forall2 (λ file tags, outcome (as_given file ["all"; "-xmp:all"]) = inr tags)
        ["pics/b"; "pics/2"; "pics/a"; "pics/b"; "pics/1"] allTags
      ∧ (Object_entries numbered_fileTags).*1
        = (index_keys
           ++ filter (λ id, array_index id = None)
                (fresh_keys [] (entered allTags)))%list
      ∧ index_keys
        ≡ₚ filter (λ id, is_Some (array_index id))
             (fresh_keys [] (entered allTags))
      ∧ StronglySorted index_before index_keys
      ∧ NoDup (Object_entries numbered_fileTags).*1
      ∧ (length (Object_entries numbered_fileTags)
         ≤ length ["pics/b"; "pics/2"; "pics/a"; "pics/b"; "pics/1"])%nat.
Proof.
  assert (returned (getTags as_given
                      ["pics/b"; "pics/2"; "pics/a"; "pics/b"; "pics/1"])
          = inr numbered_fileTags) as Hr by (vm_compute; reflexivity).
  split; [exact Hr|].
  exact (getTags_keys_as_listed as_given
           ["pics/b"; "pics/2"; "pics/a"; "pics/b"; "pics/1"] _ Hr).
Defined.

Example numbered_keys :
  (Object_entries numbered_fileTags).*1 = ["1"; "2"; "b"; "a"].
Proof. by vm_compute. Qed.

(** ** A write that fails *)

Section waiting_for_writes.

Variable readRaw : string → list string → promise Tags.
Variable write : jsval → xmpTagType → list string → promise ().




End waiting_for_writes.




(** On that batch the function returns after the write of b.jpg has
    failed, and before the write of a.jpg has settled. *)
Example failing_first_write_run :
  trace (writeImageTags sample_readRaw failing_first_write
           ["pics/a.jpg"; "pics/b.jpg"] carol)
  = (trace (getTags sample_readRaw ["pics/a.jpg"; "pics/b.jpg"])
     ++ loop_events carol sample_fileTags
     ++ [write_settled 1; console_error "b.jpg: read-only"])%list
  ∧ returned (writeImageTags sample_readRaw failing_first_write
                ["pics/a.jpg"; "pics/b.jpg"] carol)
    = inr (Object_entries sample_fileTags ≫= entry_warnings carol).
Proof. split; by vm_compute. Qed.
